(** * Dashboard backend of the bot: in-memory store and REST handlers

    A shallow embedding of [storage.ts] (class [MemStorage]) and of the
    handlers that [registerRoutes] installs over it, with the properties of
    the store and of the handlers proved over the embedding.

    Conventions of the embedding.
    - A JS [number] that holds an id, a counter, a count or a millisecond
      timestamp is a [Z]; the one non-integer a handler can meet, the [NaN]
      of a failed [parseInt], is a constructor of its own ([JsNum.NaN]).
      JS numbers are exact on integers of magnitude below 2^53, which is the
      range the embedding speaks about.
    - A JS string is a [string] that holds its UTF-8 bytes.  The source
      cuts strings only at the ASCII characters ['/'] and [' '], whose
      bytes occur nowhere inside the encoding of another character, so
      [startsWith], [substring], [split] and the template literals act on
      the bytes as they act on the characters; [parseInt] reads ASCII
      signs and digits after the white space, whose characters beyond
      ASCII are recognised by their encodings.
    - [new Date()] reads the clock: an operation that calls it takes the
      reading as an argument [now] (milliseconds, as [getTime()] gives them).
    - [Math.random()] is an input of the handler that calls it.
    - An [async] method without an inner [await] runs to completion when it
      is called; the methods of [MemStorage] are such, so each is a state
      transformer [MemStorage -> A * MemStorage]. *)

From Stdlib Require Import ZArith List String Ascii Bool Lia.
From Stdlib Require Import Sorting.Permutation Sorting.Sorted.
From Stdlib Require Import DecimalString DecimalPos.
Import ListNotations.

Local Open Scope string_scope.
Local Open Scope Z_scope.

(* ================================================================= *)
(** ** JavaScript values used by the source *)

Module JsNum.

(** The result of [parseInt]: an integer or [NaN]. *)
Inductive t : Type :=
| NaN : t
| Int : Z -> t.

(** [isNaN(x)]. *)
Definition isNaN (x : t) : bool :=
  match x with NaN => true | Int _ => false end.

(** Truthiness of a number: [NaN] and [0] are falsy. *)
Definition truthy (x : t) : bool :=
  match x with NaN => false | Int z => negb (z =? 0) end.

(** [`${x}`] on an integer. *)
Definition toString (z : Z) : string :=
  NilZero.string_of_int (Z.to_int z).

End JsNum.

Module JsString.

(** The line feed of ["\n"]. *)
Definition nl : string := String (ascii_of_nat 10) EmptyString.

(** Truthiness of a string: only the empty string is falsy. *)
Definition truthy (s : string) : bool :=
  match s with EmptyString => false | String _ _ => true end.

(** [s.startsWith(c)] for a one-character [c]. *)
Definition startsWith (c : ascii) (s : string) : bool :=
  match s with
  | EmptyString => false
  | String c' _ => Ascii.eqb c' c
  end.

(** [s.substring(1)]. *)
Definition substring1 (s : string) : string :=
  match s with
  | EmptyString => EmptyString
  | String _ s' => s'
  end.

(** [s.includes(c)] for a one-character [c]. *)
Fixpoint includes (c : ascii) (s : string) : bool :=
  match s with
  | EmptyString => false
  | String c' s' => Ascii.eqb c' c || includes c s'
  end.

(** [s.split(sep)] for a one-character separator: the pieces between the
    occurrences of [sep], at least one piece. *)
Fixpoint split (sep : ascii) (s : string) : list string :=
  match s with
  | EmptyString => [EmptyString]
  | String c s' =>
      if Ascii.eqb c sep then EmptyString :: split sep s'
      else match split sep s' with
           | [] => [String c EmptyString]
           | w :: ws => String c w :: ws
           end
  end.

(** [a[0]] on the array that [split] returns; [split] never returns an
    empty array (lemma [split_nonempty]), so the default is never used. *)
Definition first (a : list string) : string := hd EmptyString a.

(** [arr.join(sep)]. *)
Fixpoint join (sep : string) (a : list string) : string :=
  match a with
  | [] => EmptyString
  | [x] => x
  | x :: rest => x ++ sep ++ join sep rest
  end.

(** The string of the given UTF-8 bytes. *)
Definition ofBytes (bytes : list Z) : string :=
  fold_right (fun n s => String (ascii_of_nat (Z.to_nat n)) s) EmptyString
    bytes.

(** *** [parseInt(s)] with no radix

    ECMAScript [parseInt]: leading white space is dropped, one sign is
    read, a [0x] or [0X] prefix selects radix 16 (radix 10 otherwise), and
    the longest prefix of digits of that radix is the value; with no digit
    the result is [NaN]. *)

(** The characters that [parseInt] skips are the [StrWhiteSpaceChar] of
    ECMAScript: the white space TAB, VT, FF, U+FEFF and the space
    separators U+0020, U+00A0, U+1680, U+2000 to U+200A, U+202F, U+205F,
    U+3000, and the line terminators LF, CR, U+2028, U+2029.  By length
    of their UTF-8 encoding: *)

(** one byte: tab, line feed, vertical tab, form feed, carriage return and
    space; *)
Definition white1 (c : ascii) : bool :=
  let n := nat_of_ascii c in
  (Nat.eqb n 9 || Nat.eqb n 10 || Nat.eqb n 11 || Nat.eqb n 12
   || Nat.eqb n 13 || Nat.eqb n 32)%bool.

(** two bytes: U+00A0, encoded C2 A0; *)
Definition white2 (c1 c2 : ascii) : bool :=
  (Nat.eqb (nat_of_ascii c1) 194 && Nat.eqb (nat_of_ascii c2) 160)%bool.

(** three bytes: U+1680 (E1 9A 80), U+2000 to U+200A (E2 80 80 to
    E2 80 8A), U+2028, U+2029 and U+202F (E2 80 A8, A9, AF), U+205F
    (E2 81 9F), U+3000 (E3 80 80) and U+FEFF (EF BB BF). *)
Definition white3 (c1 c2 c3 : ascii) : bool :=
  let a := nat_of_ascii c1 in
  let b := nat_of_ascii c2 in
  let c := nat_of_ascii c3 in
  (Nat.eqb a 225 && Nat.eqb b 154 && Nat.eqb c 128
   || Nat.eqb a 226 && Nat.eqb b 128
      && (Nat.leb 128 c && Nat.leb c 138
          || Nat.eqb c 168 || Nat.eqb c 169 || Nat.eqb c 175)
   || Nat.eqb a 226 && Nat.eqb b 129 && Nat.eqb c 159
   || Nat.eqb a 227 && Nat.eqb b 128 && Nat.eqb c 128
   || Nat.eqb a 239 && Nat.eqb b 187 && Nat.eqb c 191)%bool.

(** The first bytes of the encodings of two and three bytes. *)
Definition whiteLead (c : ascii) : bool :=
  let n := nat_of_ascii c in
  (Nat.eqb n 194 || Nat.eqb n 225 || Nat.eqb n 226 || Nat.eqb n 227
   || Nat.eqb n 239)%bool.

(** [TrimString(s, start)]: the string without its leading white space. *)
Fixpoint trimStart (s : string) : string :=
  match s with
  | EmptyString => EmptyString
  | String c1 s1 =>
      if white1 c1 then trimStart s1
      else if whiteLead c1 then
        match s1 with
        | EmptyString => s
        | String c2 s2 =>
            if white2 c1 c2 then trimStart s2
            else
              match s2 with
              | EmptyString => s
              | String c3 s3 =>
                  if white3 c1 c2 c3 then trimStart s3 else s
              end
        end
      else s
  end.

(** The value of [c] as a digit of the radix, if it is one. *)
Definition digit (radix : Z) (c : ascii) : option Z :=
  let n := Z.of_nat (nat_of_ascii c) in
  let v :=
    if (48 <=? n) && (n <=? 57) then Some (n - 48)
    else if (97 <=? n) && (n <=? 122) then Some (n - 87)
    else if (65 <=? n) && (n <=? 90) then Some (n - 55)
    else None in
  match v with
  | Some d => if d <? radix then Some d else None
  | None => None
  end.

(** The longest prefix of digits, read left to right; [acc] is [None]
    until a first digit has been read. *)
Fixpoint digits (radix : Z) (s : string) (acc : option Z) : option Z :=
  match s with
  | EmptyString => acc
  | String c s' =>
      match digit radix c with
      | Some d =>
          digits radix s'
            (Some (radix * match acc with Some a => a | None => 0 end + d))
      | None => acc
      end
  end.

Definition parseInt (s : string) : JsNum.t :=
  let s1 := trimStart s in
  let '(sign, s2) :=
    match s1 with
    | String "-" r => (-1, r)
    | String "+" r => (1, r)
    | _ => (1, s1)
    end in
  let '(radix, s3) :=
    match s2 with
    | String "0" (String "x" r) => (16, r)
    | String "0" (String "X" r) => (16, r)
    | _ => (10, s2)
    end in
  match digits radix s3 None with
  | Some v => JsNum.Int (sign * v)
  | None => JsNum.NaN
  end.

End JsString.

(** A JS [Map] with number keys: the entries in insertion order.  [set] on
    a key that is present replaces the value in place, [set] on a new key
    appends, [delete] removes the entry; the boolean that the JS [delete]
    returns is [has] on the map before the call. *)
Module JsMap.

Section WithValue.
Context {V : Type}.

Definition t : Type := list (Z * V).

Definition empty : t := [].

Fixpoint get (k : Z) (m : t) : option V :=
  match m with
  | [] => None
  | (k', v) :: m' => if k' =? k then Some v else get k m'
  end.

Definition has (k : Z) (m : t) : bool :=
  match get k m with Some _ => true | None => false end.

Fixpoint set (k : Z) (v : V) (m : t) : t :=
  match m with
  | [] => [(k, v)]
  | (k', v') :: m' =>
      if k' =? k then (k, v) :: m' else (k', v') :: set k v m'
  end.

Fixpoint delete (k : Z) (m : t) : t :=
  match m with
  | [] => []
  | (k', v') :: m' =>
      if k' =? k then m' else (k', v') :: delete k m'
  end.

Definition keys (m : t) : list Z := map fst m.

Definition values (m : t) : list V := map snd m.

End WithValue.

Arguments t : clear implicits.

End JsMap.

(** [Array.prototype] operations used by the source. *)
Module JsArray.

Section WithElement.
Context {A : Type}.

(** [a.slice(0, e)] for an integer [e]: a negative [e] counts from the
    end, and the bound is clamped to the length. *)
Definition slice0 (e : Z) (a : list A) : list A :=
  let len := Z.of_nat (List.length a) in
  let k := if e <? 0 then Z.max (len + e) 0 else Z.min e len in
  firstn (Z.to_nat k) a.

(** [a.sort(cmp)]: ECMAScript requires a stable sort, and the result of
    a stable sort is fixed by the comparator, whatever the algorithm
    (lemma [SortFacts.sort_unique] for the comparator of [getLogs]).
    The embedding is the stable insertion sort; [cmp x y > 0] is the
    comparator's way to ask for [x] after [y]. *)
Fixpoint insert (cmp : A -> A -> Z) (x : A) (a : list A) : list A :=
  match a with
  | [] => [x]
  | y :: a' =>
      if cmp x y >? 0 then y :: insert cmp x a' else x :: y :: a'
  end.

Fixpoint sort (cmp : A -> A -> Z) (a : list A) : list A :=
  match a with
  | [] => []
  | x :: a' => insert cmp x (sort cmp a')
  end.

(** [a.push(x)]. *)
Definition push (x : A) (a : list A) : list A := (a ++ [x])%list.

End WithElement.

End JsArray.

(* ================================================================= *)
(** ** Data model *)

(** Modelled from the spec: the types [Command], [InsertCommand], [Log],
    [InsertLog], [BotStat] and [InsertBotStat] are declared in
    [@shared/schema], which is not among the sources at hand; their fields
    are the ones of the spec's data model, and the [Insert] types are the
    records without the fields that the store assigns ([id], [createdAt],
    [timestamp]). *)
Module Command.
Record t : Type := mk {
  id : Z;
  name : string;
  description : string;
  usage : string;
  active : bool;
  createdAt : Z
}.
End Command.

Module InsertCommand.
Record t : Type := mk {
  name : string;
  description : string;
  usage : string;
  active : bool
}.
End InsertCommand.

(** [Partial<InsertCommand>]: each field supplied or not. *)
Module PartialInsertCommand.
Record t : Type := mk {
  name : option string;
  description : option string;
  usage : option string;
  active : option bool
}.

(** The empty patch [{}]. *)
Definition none : t := mk None None None None.
End PartialInsertCommand.

Module Log.
Record t : Type := mk {
  id : Z;
  eventType : string;
  server : string;
  user : string;
  details : string;
  timestamp : Z
}.
End Log.

Module InsertLog.
Record t : Type := mk {
  eventType : string;
  server : string;
  user : string;
  details : string
}.
End InsertLog.

Module InsertBotStat.
Record t : Type := mk {
  uptime : string;
  servers : Z;
  commands : Z;
  memoryUsage : string;
  apiLatency : Z;
  startedAt : Z;
  updatedAt : Z
}.
End InsertBotStat.

Module BotStat.
Record t : Type := mk {
  id : Z;
  uptime : string;
  servers : Z;
  commands : Z;
  memoryUsage : string;
  apiLatency : Z;
  startedAt : Z;
  updatedAt : Z
}.
End BotStat.

(** [{ id, ...command, createdAt: now }] *)
Definition newCommandOf (id : Z) (command : InsertCommand.t) (now : Z)
  : Command.t :=
  Command.mk id
    (InsertCommand.name command) (InsertCommand.description command)
    (InsertCommand.usage command) (InsertCommand.active command)
    now.

(** [{ ...existingCommand, ...command }]: a supplied field replaces the
    existing one, the others are kept. *)
Definition spreadCommand (existingCommand : Command.t)
    (command : PartialInsertCommand.t) : Command.t :=
  let pick {T} (supplied : option T) (old : T) : T :=
    match supplied with Some v => v | None => old end in
  Command.mk
    (Command.id existingCommand)
    (pick (PartialInsertCommand.name command) (Command.name existingCommand))
    (pick (PartialInsertCommand.description command)
       (Command.description existingCommand))
    (pick (PartialInsertCommand.usage command) (Command.usage existingCommand))
    (pick (PartialInsertCommand.active command)
       (Command.active existingCommand))
    (Command.createdAt existingCommand).

(** [{ id, ...log, timestamp: new Date() }] *)
Definition newLogOf (id : Z) (log : InsertLog.t) (now : Z) : Log.t :=
  Log.mk id
    (InsertLog.eventType log) (InsertLog.server log) (InsertLog.user log)
    (InsertLog.details log) now.

(** [{ id, ...stats }] *)
Definition botStatOf (id : Z) (stats : InsertBotStat.t) : BotStat.t :=
  BotStat.mk id
    (InsertBotStat.uptime stats) (InsertBotStat.servers stats)
    (InsertBotStat.commands stats) (InsertBotStat.memoryUsage stats)
    (InsertBotStat.apiLatency stats) (InsertBotStat.startedAt stats)
    (InsertBotStat.updatedAt stats).

(* ================================================================= *)
(** ** [class MemStorage] *)

Record MemStorage : Type := mkMemStorage {
  commands : JsMap.t Command.t;
  logs : list Log.t;
  botStats : option BotStat.t;
  commandsIdCounter : Z;
  logsIdCounter : Z
}.

(** The methods thread the store: a small state monad. *)
Definition M (A : Type) : Type := MemStorage -> A * MemStorage.

Definition ret {A} (a : A) : M A := fun s => (a, s).

Definition bind {A B} (c : M A) (k : A -> M B) : M B :=
  fun s => let '(a, s') := c s in k a s'.

Declare Scope store_scope.
Delimit Scope store_scope with store.
Notation "x <- c ;; k" := (bind c (fun x => k))
  (at level 61, c at next level, right associativity) : store_scope.
Notation "c ;;; k" := (bind c (fun _ => k))
  (at level 61, right associativity) : store_scope.

Definition exec {A} (c : M A) (s : MemStorage) : MemStorage := snd (c s).
Definition eval {A} (c : M A) (s : MemStorage) : A := fst (c s).

Definition getCommands : M (list Command.t) :=
  fun s => (JsMap.values (commands s), s).

Definition getCommand (id : Z) : M (option Command.t) :=
  fun s => (JsMap.get id (commands s), s).

Definition getCommandByName (name : string) : M (option Command.t) :=
  fun s =>
    (find (fun cmd => String.eqb (Command.name cmd) name)
       (JsMap.values (commands s)), s).

Definition createCommand (command : InsertCommand.t) (now : Z)
  : M Command.t :=
  fun s =>
    let id := commandsIdCounter s in
    let newCommand := newCommandOf id command now in
    (newCommand,
     mkMemStorage (JsMap.set id newCommand (commands s)) (logs s)
       (botStats s) (id + 1) (logsIdCounter s)).

Definition updateCommand (id : Z) (command : PartialInsertCommand.t)
  : M (option Command.t) :=
  fun s =>
    match JsMap.get id (commands s) with
    | None => (None, s)
    | Some existingCommand =>
        let updatedCommand := spreadCommand existingCommand command in
        (Some updatedCommand,
         mkMemStorage (JsMap.set id updatedCommand (commands s)) (logs s)
           (botStats s) (commandsIdCounter s) (logsIdCounter s))
    end.

Definition deleteCommand (id : Z) : M bool :=
  fun s =>
    (JsMap.has id (commands s),
     mkMemStorage (JsMap.delete id (commands s)) (logs s) (botStats s)
       (commandsIdCounter s) (logsIdCounter s)).

(** The comparator of [getLogs]:
    [new Date(b.timestamp).getTime() - new Date(a.timestamp).getTime()]. *)
Definition byTimestampDesc (a b : Log.t) : Z :=
  Log.timestamp b - Log.timestamp a.

(** [limit?: number]: [None] is [undefined]. The sort works on the copy
    [[...this.logs]], so the store is returned as it was. *)
Definition getLogs (limit : option JsNum.t) : M (list Log.t) :=
  fun s =>
    let sortedLogs := JsArray.sort byTimestampDesc (logs s) in
    (match limit with
     | Some (JsNum.Int n) =>
         if JsNum.truthy (JsNum.Int n) then JsArray.slice0 n sortedLogs
         else sortedLogs
     | Some JsNum.NaN => sortedLogs
     | None => sortedLogs
     end, s).

Definition createLog (log : InsertLog.t) (now : Z) : M Log.t :=
  fun s =>
    let id := logsIdCounter s in
    let newLog := newLogOf id log now in
    (newLog,
     mkMemStorage (commands s) (JsArray.push newLog (logs s)) (botStats s)
       (commandsIdCounter s) (id + 1)).

Definition getBotStats : M (option BotStat.t) :=
  fun s => (botStats s, s).

Definition updateBotStats (stats : InsertBotStat.t) : M BotStat.t :=
  fun s =>
    let id := 1 in
    let b := botStatOf id stats in
    (b,
     mkMemStorage (commands s) (logs s) (Some b) (commandsIdCounter s)
       (logsIdCounter s)).

(** The default commands of the constructor. *)
Definition defaultCommands : list InsertCommand.t :=
  [ InsertCommand.mk "ping"
      "Checks the bot's response time and health status." "/ping" true;
    InsertCommand.mk "help"
      "Displays a list of available commands and their usage."
      "/help [command]" true;
    InsertCommand.mk "uptime"
      "Shows how long the bot has been online without interruption."
      "/uptime" true;
    InsertCommand.mk "stats"
      "Displays bot statistics including servers, users, and commands."
      "/stats" true ].

(** [defaultCommands.forEach(cmd => this.createCommand(cmd))]: the [k]-th
    call reads the clock at [clk k]. *)
Fixpoint forEachCreate (cmds : list InsertCommand.t) (clk : nat -> Z)
    (k : nat) : M unit :=
  match cmds with
  | [] => ret tt
  | cmd :: rest =>
      (createCommand cmd (clk k) ;;; forEachCreate rest clk (S k))%store
  end.

(** The state in which the constructor starts its body. *)
Definition blank : MemStorage := mkMemStorage JsMap.empty [] None 1 1.

(** [new MemStorage()]; [clk k] is the [k]-th reading of the clock during
    the construction: one per default command, then the [now] of the
    statistics. *)
Definition constructor (clk : nat -> Z) : MemStorage :=
  exec
    (forEachCreate defaultCommands clk 0 ;;;
     let now := clk (List.length defaultCommands) in
     updateBotStats
       (InsertBotStat.mk "0d 0h 0m" 0 (Z.of_nat (List.length defaultCommands))
          "0 MB" 0 now now))%store
    blank.

(* ================================================================= *)
(** ** The handlers of [registerRoutes]

    Every [await] of a handler waits on a method of [MemStorage], whose
    promise is already settled; a handler therefore runs from its request
    to its response without another handler in between, and is a state
    transformer like the methods.  None of the embedded operations throws
    on the inputs the embedding gives them, so the [catch] branches (the
    500 responses) have no counterpart here. *)

Module Http.

(** What a handler sends: [res.json(...)] or [res.send()]. *)
Inductive Body : Type :=
| Empty : Body
| Message (message : string) : Body
| MessageErrors (message : string) : Body
| MessageResponse (message response : string) : Body
| OneCommand (command : Command.t) : Body
| Commands (commands : list Command.t) : Body
| Logs (logs : list Log.t) : Body.

Record Response : Type := mkResponse {
  status : Z;
  body : Body
}.

(** [res.status(n).json(b)]; [res.json(b)] alone answers 200. *)
Definition json (status : Z) (b : Body) : Response := mkResponse status b.

End Http.

Import Http.

Local Open Scope store_scope.

(** [app.get("/api/commands", ...)] *)
Definition getCommandsRoute : M Response :=
  commands <- getCommands ;;
  ret (json 200 (Commands commands)).

(** [app.get("/api/commands/:id", ...)]; [idParam] is [req.params.id].
    The branch [JsNum.NaN] is the one of [if (isNaN(id))]. *)
Definition getCommandRoute (idParam : string) : M Response :=
  match JsString.parseInt idParam with
  | JsNum.NaN => ret (json 400 (Message "Invalid command ID"))
  | JsNum.Int id =>
      command <- getCommand id ;;
      match command with
      | None => ret (json 404 (Message "Command not found"))
      | Some c => ret (json 200 (OneCommand c))
      end
  end.

(** [app.patch("/api/commands/:id", ...)].  [insertCommandSchema] lives in
    [@shared/schema]; its verdict on the body is the argument [parsed],
    [None] when [parse] throws a [ZodError]. *)
Definition patchCommandRoute (idParam : string)
    (parsed : option PartialInsertCommand.t) : M Response :=
  match JsString.parseInt idParam with
  | JsNum.NaN => ret (json 400 (Message "Invalid command ID"))
  | JsNum.Int id =>
      match parsed with
      | None => ret (json 400 (MessageErrors "Invalid command data"))
      | Some validatedCommand =>
          updatedCommand <- updateCommand id validatedCommand ;;
          match updatedCommand with
          | None => ret (json 404 (Message "Command not found"))
          | Some c => ret (json 200 (OneCommand c))
          end
      end
  end.

(** [app.delete("/api/commands/:id", ...)] *)
Definition deleteCommandRoute (idParam : string) : M Response :=
  match JsString.parseInt idParam with
  | JsNum.NaN => ret (json 400 (Message "Invalid command ID"))
  | JsNum.Int id =>
      deleted <- deleteCommand id ;;
      if negb deleted then ret (json 404 (Message "Command not found"))
      else ret (mkResponse 204 Empty)
  end.

(** [req.query.limit ? parseInt(req.query.limit as string) : undefined] *)
Definition limitOfQuery (limitQuery : option string) : option JsNum.t :=
  match limitQuery with
  | Some q => if JsString.truthy q then Some (JsString.parseInt q) else None
  | None => None
  end.

(** [app.get("/api/logs", ...)]; [limitQuery] is [req.query.limit]. *)
Definition getLogsRoute (limitQuery : option string) : M Response :=
  let limit := limitOfQuery limitQuery in
  logs <- getLogs limit ;;
  ret (json 200 (Logs logs)).

(** The command name of the test endpoint:
    [command.startsWith('/') ? command.substring(1).split(' ')[0]
                             : command.split(' ')[0]] *)
Definition commandNameOf (command : string) : string :=
  if JsString.startsWith "/" command
  then JsString.first (JsString.split " " (JsString.substring1 command))
  else JsString.first (JsString.split " " command).

(** [x || 0] on an integer and [x || d] on a string. *)
Definition orZero (x : Z) : Z := if x =? 0 then 0 else x.
Definition orString (x d : string) : string :=
  if JsString.truthy x then x else d.

(** The [switch (commandName)] of the test endpoint.  [rnd] stands for
    [Math.floor(Math.random() * 50)]. *)
Definition simulate (commandName command : string) (rnd : Z) : M string :=
  if String.eqb commandName "ping" then
    ret ("Pong! 🏓 Bot latency: " ++ JsNum.toString (rnd + 20) ++ "ms"
         ++ JsString.nl ++ "Bot is online and functioning properly!")%string
  else if String.eqb commandName "help" then
    commands <- getCommands ;;
    ret ("Available commands:" ++ JsString.nl ++
         JsString.join JsString.nl
           (map (fun c => "/" ++ Command.name c ++ " - "
                          ++ Command.description c)
              (filter Command.active commands)))%string
  else if String.eqb commandName "uptime" then
    stats <- getBotStats ;;
    ret ("Bot has been online for " ++
         match stats with
         | Some st => orString (BotStat.uptime st) "unknown"
         | None => "unknown"
         end)%string
  else if String.eqb commandName "stats" then
    botStats <- getBotStats ;;
    let num (f : BotStat.t -> Z) : string :=
      JsNum.toString
        match botStats with Some b => orZero (f b) | None => 0 end in
    ret ("Bot Stats:" ++ JsString.nl ++
         "Servers: " ++ num BotStat.servers ++ JsString.nl ++
         "Commands: " ++ num BotStat.commands ++ JsString.nl ++
         "Memory Usage: " ++
         match botStats with
         | Some b => orString (BotStat.memoryUsage b) "0 MB"
         | None => "0 MB"
         end ++ JsString.nl ++
         "API Latency: " ++ num BotStat.apiLatency ++ "ms")%string
  else
    ret ("Executed command: " ++ command)%string.

(** The log entry of a test. *)
Definition testLog (command : string) : InsertLog.t :=
  InsertLog.mk "Test" "Dashboard" "User" ("Tested command: " ++ command).

(** [app.post("/api/test-command", ...)].  [command] is [req.body.command]
    when it is a string, [None] when the body has no such field; [now] is
    the clock reading of [createLog]. *)
Definition testCommandRoute (command : option string) (rnd now : Z)
  : M Response :=
  match command with
  | None => ret (json 400 (Message "Command is required"))
  | Some command =>
      if negb (JsString.truthy command)
      then ret (json 400 (Message "Command is required"))
      else
        let commandName := commandNameOf command in
        cmd <- getCommandByName commandName ;;
        match cmd with
        | None =>
            ret (json 404
                   (MessageResponse
                      ("Command '" ++ commandName ++ "' not found")
                      ("Unknown command: " ++ commandName)))
        | Some _ =>
            response <- simulate commandName command rnd ;;
            createLog (testLog command) now ;;;
            ret (json 200 (MessageResponse "Command executed" response))
        end
  end.

Local Close Scope store_scope.

(* ================================================================= *)
(** ** Runs of the store

    The fields of [MemStorage] are private and the one instance, [storage],
    is built by the constructor: its states are the ones that a sequence of
    method calls reaches from a constructed store. *)

Inductive Op : Type :=
| OpGetCommands
| OpGetCommand (id : Z)
| OpGetCommandByName (name : string)
| OpCreateCommand (command : InsertCommand.t) (now : Z)
| OpUpdateCommand (id : Z) (command : PartialInsertCommand.t)
| OpDeleteCommand (id : Z)
| OpGetLogs (limit : option JsNum.t)
| OpCreateLog (log : InsertLog.t) (now : Z)
| OpGetBotStats
| OpUpdateBotStats (stats : InsertBotStat.t).

Definition step (o : Op) (s : MemStorage) : MemStorage :=
  match o with
  | OpGetCommands => exec getCommands s
  | OpGetCommand id => exec (getCommand id) s
  | OpGetCommandByName name => exec (getCommandByName name) s
  | OpCreateCommand command now => exec (createCommand command now) s
  | OpUpdateCommand id command => exec (updateCommand id command) s
  | OpDeleteCommand id => exec (deleteCommand id) s
  | OpGetLogs limit => exec (getLogs limit) s
  | OpCreateLog log now => exec (createLog log now) s
  | OpGetBotStats => exec getBotStats s
  | OpUpdateBotStats stats => exec (updateBotStats stats) s
  end.

Fixpoint run (ops : list Op) (s : MemStorage) : MemStorage :=
  match ops with
  | [] => s
  | o :: rest => run rest (step o s)
  end.

Definition reachable (s : MemStorage) : Prop :=
  exists clk ops, s = run ops (constructor clk).

(** The id that a call assigns: [createCommand] returns the command it
    stored, and its [id] is the assigned one. *)
Definition assigned (o : Op) (s : MemStorage) : option Z :=
  match o with
  | OpCreateCommand command now =>
      Some (Command.id (eval (createCommand command now) s))
  | _ => None
  end.

(** The ids assigned along a run, oldest first. *)
Fixpoint assignedIds (ops : list Op) (s : MemStorage) : list Z :=
  match ops with
  | [] => []
  | o :: rest =>
      match assigned o s with
      | Some id => id :: assignedIds rest (step o s)
      | None => assignedIds rest (step o s)
      end
  end.

(** The calls that the constructor makes on the blank store. *)
Definition constructorOps (clk : nat -> Z) : list Op :=
  (map (fun '(k, cmd) => OpCreateCommand cmd (clk k))
     (combine (seq 0 (List.length defaultCommands)) defaultCommands)
   ++ [OpUpdateBotStats
         (InsertBotStat.mk "0d 0h 0m" 0
            (Z.of_nat (List.length defaultCommands)) "0 MB" 0
            (clk (List.length defaultCommands))
            (clk (List.length defaultCommands)))])%list.

(** *** Uniqueness of ids and of names *)

(** Distinct entries of the map carry distinct names. *)
Definition namesUnique (s : MemStorage) : Prop :=
  forall i j ci cj,
    JsMap.get i (commands s) = Some ci ->
    JsMap.get j (commands s) = Some cj ->
    i <> j -> Command.name ci <> Command.name cj.

(** Each id is the key of one entry, and the entry carries it as its
    [id] field. *)
Definition idsUnique (s : MemStorage) : Prop :=
  NoDup (JsMap.keys (commands s)) /\
  forall k c, JsMap.get k (commands s) = Some c -> Command.id c = k.

(** No entry of [m], the one under [skip] apart, is named [n]. *)
Definition nameFree (n : string) (skip : option Z) (m : JsMap.t Command.t)
  : bool :=
  forallb
    (fun '(k, c) =>
       match skip with
       | Some k0 => (k =? k0) || negb (String.eqb (Command.name c) n)
       | None => negb (String.eqb (Command.name c) n)
       end)
    m.

(** A call that keeps the names apart whatever the store does: a create
    whose name no stored command has, an update that supplies no name or
    one that no other stored command has; the other methods never touch a
    name. *)
Definition nameSafe (o : Op) (s : MemStorage) : bool :=
  match o with
  | OpCreateCommand command _ =>
      nameFree (InsertCommand.name command) None (commands s)
  | OpUpdateCommand id command =>
      match PartialInsertCommand.name command with
      | Some n => nameFree n (Some id) (commands s)
      | None => true
      end
  | _ => true
  end.

Fixpoint allNameSafe (ops : list Op) (s : MemStorage) : bool :=
  match ops with
  | [] => true
  | o :: rest => nameSafe o s && allNameSafe rest (step o s)
  end.

(** A store invariant used by the proofs: keys are distinct, below the
    counter, and equal to the [id] of their entry. *)
Definition wellKeyed (s : MemStorage) : Prop :=
  NoDup (JsMap.keys (commands s)) /\
  (forall k, In k (JsMap.keys (commands s)) -> k < commandsIdCounter s) /\
  (forall k c, JsMap.get k (commands s) = Some c -> Command.id c = k).

(** *** Descending order of a log sequence *)

(** Every entry is at least as recent as the entries after it. *)
Definition descending (l : list Log.t) : Prop :=
  StronglySorted (fun a b => Log.timestamp b <= Log.timestamp a) l.

(** The entries of [l] stamped [t], in the order of [l]. *)
Definition stamped (t : Z) (l : list Log.t) : list Log.t :=
  filter (fun x => Log.timestamp x =? t) l.

(* ================================================================= *)
(** ** The other handlers of [registerRoutes] *)

(** What the handlers read of the chat client that [getDiscordClient()]
    returns ([./discord] is not among the sources at hand): whether it is
    ready, the number of guilds in its cache and the latency of its web
    socket.  A handler takes the client, or its absence, as an argument. *)
Module Bot.
Record t : Type := mk {
  isReady : bool;
  guildsCacheSize : Z;
  wsPing : Z
}.
End Bot.

(** The answers of the handlers whose body is none of [Http.Body]. *)
Module Reply.
Inductive Payload : Type :=
| Plain (b : Http.Body) : Payload
| OneLog (log : Log.t) : Payload
| BotStatus (status : string) (stats : BotStat.t) : Payload.

Record t : Type := mk {
  code : Z;
  payload : Payload
}.
End Reply.

Local Open Scope store_scope.

(** [app.get("/api/status", ...)]; the body is
    [{ status: bot.isReady() ? "online" : "offline", ...stats }]. *)
Definition statusRoute (bot : option Bot.t) : M Reply.t :=
  stats <- getBotStats ;;
  match bot, stats with
  | Some b, Some st =>
      ret (Reply.mk 200
             (Reply.BotStatus
                (if Bot.isReady b then "online" else "offline") st))
  | _, _ => ret (Reply.mk 503 (Reply.Plain (Message "Bot is not available")))
  end.

(** [app.post("/api/commands", ...)]; [parsed] is the verdict of
    [insertCommandSchema.parse(req.body)], [None] for a [ZodError]. *)
Definition createCommandRoute (parsed : option InsertCommand.t) (now : Z)
  : M Response :=
  match parsed with
  | None => ret (json 400 (MessageErrors "Invalid command data"))
  | Some validatedCommand =>
      command <- createCommand validatedCommand now ;;
      ret (json 201 (OneCommand command))
  end.

(** [app.post("/api/logs", ...)]; [parsed] is the verdict of
    [insertLogSchema.parse(req.body)]. *)
Definition createLogRoute (parsed : option InsertLog.t) (now : Z)
  : M Reply.t :=
  match parsed with
  | None =>
      ret (Reply.mk 400 (Reply.Plain (MessageErrors "Invalid log data")))
  | Some validatedLog =>
      log <- createLog validatedLog now ;;
      ret (Reply.mk 201 (Reply.OneLog log))
  end.

(** [Math.round(heapUsed / 1024 / 1024)] for a byte count: the quotient by
    a power of two is exact, and [Math.round] takes the half up. *)
Definition roundMB (heapUsed : Z) : Z := (heapUsed + 524288) / 1048576.

(** The log entry of a restart request. *)
Definition restartLog : InsertLog.t :=
  InsertLog.mk "System" "-" "-" "Bot restart requested".

(** [app.post("/api/restart", ...)]; [logNow] is the clock reading of
    [createLog], [now] the one of the handler, [heapUsed] is
    [process.memoryUsage().heapUsed]. *)
Definition restartRoute (bot : option Bot.t) (logNow now heapUsed : Z)
  : M Response :=
  createLog restartLog logNow ;;;
  match bot with
  | None => ret (json 503 (Message "Bot is not available"))
  | Some b =>
      commands <- getCommands ;;
      updateBotStats
        (InsertBotStat.mk "0d 0h 0m" (Bot.guildsCacheSize b)
           (Z.of_nat (List.length commands))
           (JsNum.toString (roundMB heapUsed) ++ " MB")
           (Bot.wsPing b) now now) ;;;
      ret (json 200 (Message "Bot restarted successfully"))
  end.

Local Close Scope store_scope.

(** *** Shapes of the store along runs *)

(** The commands are listed in increasing id order, ids from 1 up to the
    counter. *)
Definition keysAscending (s : MemStorage) : Prop :=
  StronglySorted Z.lt (JsMap.keys (commands s)) /\
  Forall (fun k => 1 <= k < commandsIdCounter s) (JsMap.keys (commands s)) /\
  1 <= commandsIdCounter s.

(** The ids [1, 2, ..., n]. *)
Definition idsUpTo (n : nat) : list Z := map Z.of_nat (seq 1 n).

(** The [k]-th log entry has id [k], and the counter is one past the last. *)
Definition logIdsConsecutive (s : MemStorage) : Prop :=
  map Log.id (logs s) = idsUpTo (List.length (logs s)) /\
  logsIdCounter s = Z.of_nat (List.length (logs s)) + 1.

(** Whether a call writes the statistics. *)
Definition writesStats (o : Op) : bool :=
  match o with OpUpdateBotStats _ => true | _ => false end.

(* ================================================================= *)
(** * Properties *)

(** ** JS helpers *)

Module JsStringFacts.
Import JsString.

Lemma split_nonempty (sep : ascii) (s : string) : split sep s <> [].
Proof.
  induction s as [|c s IH]; simpl; [discriminate|].
  destruct (Ascii.eqb c sep); [discriminate|].
  destruct (split sep s); discriminate.
Qed.

Lemma truthy_nonempty (s : string) : truthy s = true <-> s <> "".
Proof. destruct s; simpl; split; congruence. Qed.

(** [parseInt] skips every white space character of ECMAScript, here all
    of them in a row, and no other character beyond ASCII: U+0085
    (C2 85) and the zero width space U+200B (E2 80 8B) stop it. *)
Example parseInt_skips_white_space :
  parseInt
    (ofBytes
       [ 9; 10; 11; 12; 13; 32; 194; 160; 225; 154; 128;
         226; 128; 128; 226; 128; 129; 226; 128; 130; 226; 128; 131;
         226; 128; 132; 226; 128; 133; 226; 128; 134; 226; 128; 135;
         226; 128; 136; 226; 128; 137; 226; 128; 138;
         226; 128; 168; 226; 128; 169; 226; 128; 175; 226; 129; 159;
         227; 128; 128; 239; 187; 191 ] ++ "-42px")
  = JsNum.Int (-42) /\
  parseInt (ofBytes [194; 160] ++ "3") = JsNum.Int 3 /\
  parseInt (ofBytes [227; 128; 128] ++ "1") = JsNum.Int 1 /\
  parseInt (ofBytes [194; 133] ++ "3") = JsNum.NaN /\
  parseInt (ofBytes [226; 128; 139] ++ "3") = JsNum.NaN.
Proof. repeat split. Qed.

End JsStringFacts.

Module JsMapFacts.
Import JsMap.

Section WithValue.
Context {V : Type}.
Implicit Types (m : JsMap.t V) (k : Z) (v : V).

Lemma get_set_eq m k v : get k (set k v m) = Some v.
Proof.
  induction m as [|[k' v'] m IH]; simpl.
  - now rewrite Z.eqb_refl.
  - destruct (k' =? k) eqn:E; simpl; rewrite ?Z.eqb_refl, ?E; auto.
Qed.

Lemma get_set_ne m k k' v : k' <> k -> get k' (set k v m) = get k' m.
Proof.
  intros Hne. induction m as [|[k1 v1] m IH]; simpl.
  - destruct (k =? k') eqn:E; [apply Z.eqb_eq in E; congruence|auto].
  - destruct (k1 =? k) eqn:E; simpl.
    + apply Z.eqb_eq in E; subst k1.
      destruct (k =? k') eqn:E'; [apply Z.eqb_eq in E'; congruence|auto].
    + now rewrite IH.
Qed.

Lemma get_delete_ne m k k' : k' <> k -> get k' (delete k m) = get k' m.
Proof.
  intros Hne. induction m as [|[k1 v1] m IH]; simpl; auto.
  destruct (k1 =? k) eqn:E; simpl.
  - apply Z.eqb_eq in E; subst k1.
    destruct (k =? k') eqn:E'; [apply Z.eqb_eq in E'; congruence|auto].
  - now rewrite IH.
Qed.

Lemma get_None m k : get k m = None <-> ~ In k (keys m).
Proof.
  induction m as [|[k1 v1] m IH]; simpl; [tauto|].
  destruct (k1 =? k) eqn:E.
  - apply Z.eqb_eq in E. split; [discriminate|tauto].
  - apply Z.eqb_neq in E. rewrite IH. tauto.
Qed.

Lemma get_Some_key m k v : get k m = Some v -> In k (keys m).
Proof.
  intros H. destruct (in_dec Z.eq_dec k (keys m)) as [|Hn]; auto.
  apply get_None in Hn. congruence.
Qed.

Lemma get_Some_In m k v : get k m = Some v -> In (k, v) m.
Proof.
  induction m as [|[k1 v1] m IH]; simpl; [discriminate|].
  destruct (k1 =? k) eqn:E.
  - apply Z.eqb_eq in E. intros [= ->]. left; congruence.
  - auto.
Qed.

Lemma In_get m k v : NoDup (keys m) -> In (k, v) m -> get k m = Some v.
Proof.
  induction m as [|[k1 v1] m IH]; simpl; [tauto|].
  intros Hnd [Heq|Hin].
  - injection Heq as -> ->. now rewrite Z.eqb_refl.
  - inversion Hnd as [|? ? Hk1 Hnd']; subst.
    destruct (k1 =? k) eqn:E; auto.
    apply Z.eqb_eq in E; subst k1. exfalso. apply Hk1.
    change k with (fst (k, v)). now apply in_map.
Qed.

Lemma keys_set m k v k' :
  In k' (keys (set k v m)) <-> k' = k \/ In k' (keys m).
Proof.
  induction m as [|[k1 v1] m IH]; simpl.
  - intuition.
  - destruct (k1 =? k) eqn:E; simpl.
    + apply Z.eqb_eq in E; subst. intuition.
    + rewrite IH. intuition.
Qed.

Lemma keys_delete m k k' : In k' (keys (delete k m)) -> In k' (keys m).
Proof.
  induction m as [|[k1 v1] m IH]; simpl; auto.
  destruct (k1 =? k); simpl; intuition.
Qed.

Lemma NoDup_set m k v : NoDup (keys m) -> NoDup (keys (set k v m)).
Proof.
  induction m as [|[k1 v1] m IH]; simpl; intros Hnd.
  - constructor; [intros []|constructor].
  - inversion Hnd as [|? ? Hk1 Hnd']; subst.
    destruct (k1 =? k) eqn:E; simpl.
    + apply Z.eqb_eq in E; subst. now constructor.
    + apply Z.eqb_neq in E. constructor; auto.
      rewrite keys_set. intros [->|Hin]; [congruence|contradiction].
Qed.

Lemma NoDup_delete m k : NoDup (keys m) -> NoDup (keys (delete k m)).
Proof.
  induction m as [|[k1 v1] m IH]; simpl; intros Hnd; auto.
  inversion Hnd as [|? ? Hk1 Hnd']; subst.
  destruct (k1 =? k); simpl; auto.
  constructor; auto. intros Hin. apply Hk1. eapply keys_delete; eauto.
Qed.

Lemma get_delete_eq m k : NoDup (keys m) -> get k (delete k m) = None.
Proof.
  induction m as [|[k1 v1] m IH]; simpl; intros Hnd; auto.
  inversion Hnd as [|? ? Hk1 Hnd']; subst.
  destruct (k1 =? k) eqn:E; simpl.
  - apply Z.eqb_eq in E; subst. now apply get_None.
  - rewrite E. auto.
Qed.

Lemma get_delete_Some m k k' v :
  NoDup (keys m) -> get k' (delete k m) = Some v ->
  k' <> k /\ get k' m = Some v.
Proof.
  intros Hnd H. destruct (Z.eq_dec k' k) as [->|Hne].
  - rewrite get_delete_eq in H by assumption. discriminate.
  - rewrite get_delete_ne in H by assumption. auto.
Qed.

(** A key that is present keeps its place. *)
Lemma keys_set_present m k v v' :
  get k m = Some v -> keys (set k v' m) = keys m.
Proof.
  unfold keys. induction m as [|[k1 v1] m IH]; simpl; [discriminate|].
  destruct (k1 =? k) eqn:E; simpl.
  - apply Z.eqb_eq in E. now subst.
  - intros H. now rewrite IH.
Qed.

(** A key that is absent is appended: the Map keeps insertion order. *)
Lemma set_fresh m k v : get k m = None -> set k v m = (m ++ [(k, v)])%list.
Proof.
  induction m as [|[k1 v1] m IH]; simpl; auto.
  destruct (k1 =? k); [discriminate|]. intros H. now rewrite IH.
Qed.

End WithValue.

End JsMapFacts.

(** ** [Array.prototype.sort] with the comparator of [getLogs] *)

Module SortFacts.
Import JsArray.

Local Abbreviation ts := Log.timestamp.

Lemma cmp_gt (x y : Log.t) :
  (byTimestampDesc x y >? 0) = (ts x <? ts y).
Proof.
  unfold byTimestampDesc.
  destruct (ts x <? ts y) eqn:E;
    [apply Z.ltb_lt in E | apply Z.ltb_ge in E];
    [apply Z.gtb_lt | rewrite Z.gtb_ltb; apply Z.ltb_ge]; lia.
Qed.

Lemma insert_perm (x : Log.t) (a : list Log.t) :
  Permutation (x :: a) (insert byTimestampDesc x a).
Proof.
  induction a as [|y a IH]; simpl; auto.
  destruct (byTimestampDesc x y >? 0); auto.
  rewrite perm_swap. now constructor.
Qed.

Lemma sort_perm (a : list Log.t) :
  Permutation a (sort byTimestampDesc a).
Proof.
  induction a as [|x a IH]; simpl; auto.
  rewrite <- insert_perm. now constructor.
Qed.

Lemma insert_descending (x : Log.t) (a : list Log.t) :
  descending a -> descending (insert byTimestampDesc x a).
Proof.
  unfold descending.
  induction a as [|y a IH]; simpl; intros Hs.
  - repeat constructor.
  - inversion Hs as [|? ? Hs' Hall]; subst.
    rewrite cmp_gt. destruct (ts x <? ts y) eqn:E.
    + apply Z.ltb_lt in E. constructor; auto.
      eapply Permutation_Forall; [apply insert_perm|].
      constructor; [lia|assumption].
    + apply Z.ltb_ge in E. constructor; auto.
      constructor; [assumption|].
      eapply Forall_impl; [|exact Hall]. simpl; intros; lia.
Qed.

Lemma sort_descending (a : list Log.t) :
  descending (sort byTimestampDesc a).
Proof.
  induction a as [|x a IH]; simpl.
  - constructor.
  - now apply insert_descending.
Qed.

(** Stability: entries with one timestamp keep their order. *)
Lemma insert_stamped (t : Z) (x : Log.t) (a : list Log.t) :
  stamped t (insert byTimestampDesc x a) = stamped t (x :: a).
Proof.
  unfold stamped. induction a as [|y a IH]; simpl; auto.
  rewrite cmp_gt. destruct (ts x <? ts y) eqn:E; simpl; auto.
  apply Z.ltb_lt in E. rewrite IH. simpl.
  destruct (ts y =? t) eqn:Ey, (ts x =? t) eqn:Ex; auto.
  apply Z.eqb_eq in Ey, Ex. lia.
Qed.

Lemma sort_stamped (t : Z) (a : list Log.t) :
  stamped t (sort byTimestampDesc a) = stamped t a.
Proof.
  induction a as [|x a IH]; simpl; auto.
  rewrite insert_stamped. unfold stamped in *. simpl. now rewrite IH.
Qed.

Lemma sort_length (a : list Log.t) :
  List.length (sort byTimestampDesc a) = List.length a.
Proof. symmetry. apply Permutation_length, sort_perm. Qed.

Lemma stamped_In (t : Z) (a : Log.t) (l : list Log.t) :
  In a (stamped t l) <-> In a l /\ ts a = t.
Proof.
  unfold stamped. rewrite filter_In. now rewrite Z.eqb_eq.
Qed.

(** The order is fixed by the three properties: a sequence that is a
    descending, order-keeping rearrangement of [a] is [sort] of [a],
    whatever algorithm produced it. *)
Lemma descending_stamped_eq (l1 : list Log.t) :
  forall l2,
    descending l1 -> descending l2 ->
    (forall t, stamped t l1 = stamped t l2) -> l1 = l2.
Proof.
  induction l1 as [|x l1 IH]; intros l2 H1 H2 Hst.
  - destruct l2 as [|y l2]; auto.
    specialize (Hst (ts y)). unfold stamped in Hst. simpl in Hst.
    rewrite Z.eqb_refl in Hst. discriminate.
  - destruct l2 as [|y l2].
    + specialize (Hst (ts x)). unfold stamped in Hst. simpl in Hst.
      rewrite Z.eqb_refl in Hst. discriminate.
    + inversion H1 as [|? ? H1' Hx]; inversion H2 as [|? ? H2' Hy]; subst.
      rewrite Forall_forall in Hx, Hy.
      assert (Hxy : ts x = ts y).
      { assert (In x (y :: l2)) as [->|Hin]; auto.
        { apply (stamped_In (ts x)). rewrite <- Hst.
          apply stamped_In. simpl; auto. }
        assert (In y (x :: l1)) as [->|Hin']; auto.
        { apply (stamped_In (ts y)). rewrite Hst.
          apply stamped_In. simpl; auto. }
        apply Hx in Hin'. apply Hy in Hin. lia. }
      assert (x = y).
      { pose proof (Hst (ts x)) as E. unfold stamped in E. simpl in E.
        rewrite <- Hxy, Z.eqb_refl in E. congruence. }
      subst y. f_equal. apply IH; auto.
      intros t. specialize (Hst t). unfold stamped in *. simpl in Hst.
      destruct (ts x =? t); congruence.
Qed.

Lemma sort_unique (a l : list Log.t) :
  descending l -> (forall t, stamped t l = stamped t a) ->
  l = sort byTimestampDesc a.
Proof.
  intros Hd Hst. apply descending_stamped_eq; auto.
  - apply sort_descending.
  - intros t. now rewrite sort_stamped.
Qed.

(** In a descending sequence an earlier position is at least as recent. *)
Lemma descending_nth (l : list Log.t) :
  descending l ->
  forall (i j : nat) a b,
    (i < j)%nat -> nth_error l i = Some a -> nth_error l j = Some b ->
    ts b <= ts a.
Proof.
  induction 1 as [|x l Hs IH Hall]; intros i j a b Hij Hi Hj.
  - destruct i; discriminate.
  - destruct j as [|j]; [lia|]. simpl in Hj.
    destruct i as [|i]; simpl in Hi.
    + injection Hi as ->. apply nth_error_In in Hj.
      rewrite Forall_forall in Hall. now apply Hall.
    + apply (IH i j); auto. lia.
Qed.

(** The head part of a descending sequence is at least as recent as the
    rest. *)
Lemma descending_firstn_skipn (l : list Log.t) (n : nat) :
  descending l ->
  forall a b, In a (firstn n l) -> In b (skipn n l) -> ts b <= ts a.
Proof.
  intros Hs. revert n.
  induction Hs as [|x l Hs IH Hall]; intros n a b Ha Hb.
  - destruct n; destruct Ha.
  - destruct n as [|n]; simpl in *; [destruct Ha|].
    destruct Ha as [<-|Ha].
    + rewrite Forall_forall in Hall. apply Hall.
      rewrite <- (firstn_skipn n l). apply in_or_app. now right.
    + now apply (IH n).
Qed.

End SortFacts.

(** ** The store invariant along runs *)

Section Invariant.
Import JsMapFacts.

Ltac store_case :=
  unfold step, exec, getCommands, getCommand, getCommandByName, createCommand,
    updateCommand, deleteCommand, getLogs, createLog, getBotStats,
    updateBotStats; simpl.

Lemma spreadCommand_id c p : Command.id (spreadCommand c p) = Command.id c.
Proof. reflexivity. Qed.

Lemma wellKeyed_blank : wellKeyed blank.
Proof.
  split; [|split]; simpl; [constructor|tauto|discriminate].
Qed.

Lemma wellKeyed_step o s : wellKeyed s -> wellKeyed (step o s).
Proof.
  intros (Hnd & Hlt & Hid).
  destruct o; store_case; try (split; [|split]; assumption).
  - (* createCommand *)
    split; [|split]; simpl.
    + now apply NoDup_set.
    + intros k Hk. apply keys_set in Hk as [->|Hk]; [lia|].
      apply Hlt in Hk. lia.
    + intros k c. destruct (Z.eq_dec k (commandsIdCounter s)) as [->|Hne].
      * rewrite get_set_eq. now intros [= <-].
      * rewrite get_set_ne by assumption. apply Hid.
  - (* updateCommand *)
    destruct (JsMap.get id (commands s)) as [existing|] eqn:Hget; simpl;
      [|split; [|split]; assumption].
    split; [|split]; simpl.
    + now apply NoDup_set.
    + intros k Hk. apply keys_set in Hk as [->|Hk]; auto.
      apply Hlt. eapply get_Some_key; eauto.
    + intros k c. destruct (Z.eq_dec k id) as [->|Hne].
      * rewrite get_set_eq. intros [= <-]. rewrite spreadCommand_id. auto.
      * rewrite get_set_ne by assumption. apply Hid.
  - (* deleteCommand *)
    split; [|split]; simpl.
    + now apply NoDup_delete.
    + intros k Hk. apply Hlt. eapply keys_delete; eauto.
    + intros k c Hk. apply get_delete_Some in Hk as [_ Hk]; auto.
Qed.

Lemma wellKeyed_run ops : forall s, wellKeyed s -> wellKeyed (run ops s).
Proof.
  induction ops as [|o ops IH]; simpl; intros s Hs; auto.
  apply IH. now apply wellKeyed_step.
Qed.

Lemma constructor_run clk : constructor clk = run (constructorOps clk) blank.
Proof. reflexivity. Qed.

Lemma wellKeyed_constructor clk : wellKeyed (constructor clk).
Proof. rewrite constructor_run. apply wellKeyed_run, wellKeyed_blank. Qed.

Lemma run_app ops1 ops2 s : run (ops1 ++ ops2) s = run ops2 (run ops1 s).
Proof. revert s. induction ops1; simpl; auto. Qed.

Lemma nameFree_spec n skip m :
  nameFree n skip m = true ->
  forall k c, JsMap.get k m = Some c -> skip <> Some k ->
              Command.name c <> n.
Proof.
  unfold nameFree. rewrite forallb_forall. intros H k c Hget Hskip.
  apply get_Some_In, H in Hget.
  destruct skip as [k0|].
  - apply orb_true_iff in Hget as [E|E].
    + apply Z.eqb_eq in E. congruence.
    + apply negb_true_iff, String.eqb_neq in E. exact E.
  - apply negb_true_iff, String.eqb_neq in Hget. exact Hget.
Qed.

Lemma namesUnique_step o s :
  wellKeyed s -> namesUnique s -> nameSafe o s = true ->
  namesUnique (step o s).
Proof.
  intros (Hnd & _ & _) Hu Hsafe.
  destruct o; store_case; try exact Hu; simpl in Hsafe.
  - (* createCommand *)
    pose proof (nameFree_spec _ _ _ Hsafe) as Hfree.
    intros i j ci cj Hi Hj Hij. simpl in Hi, Hj.
    destruct (Z.eq_dec i (commandsIdCounter s)) as [->|Hi'];
      destruct (Z.eq_dec j (commandsIdCounter s)) as [->|Hj'];
      try congruence.
    + rewrite get_set_eq in Hi. rewrite get_set_ne in Hj by assumption.
      injection Hi as <-. simpl. intros E. symmetry in E. revert E.
      apply (Hfree j); [assumption|discriminate].
    + rewrite get_set_eq in Hj. rewrite get_set_ne in Hi by assumption.
      injection Hj as <-. simpl.
      apply (Hfree i); [assumption|discriminate].
    + rewrite get_set_ne in Hi, Hj by assumption. eapply Hu; eauto.
  - (* updateCommand *)
    destruct (JsMap.get id (commands s)) as [existing|] eqn:Hget; simpl;
      [|exact Hu].
    assert (Hother : forall k c, k <> id ->
              JsMap.get k (commands s) = Some c ->
              Command.name c <> Command.name (spreadCommand existing command)).
    { intros k c Hk Hc. simpl.
      destruct (PartialInsertCommand.name command) as [n|] eqn:En.
      - eapply nameFree_spec; eauto. congruence.
      - eapply Hu; eauto. }
    intros i j ci cj Hi Hj Hij. simpl in Hi, Hj.
    destruct (Z.eq_dec i id) as [->|Hi'];
      destruct (Z.eq_dec j id) as [->|Hj'];
      try congruence.
    + rewrite get_set_eq in Hi. rewrite get_set_ne in Hj by assumption.
      injection Hi as <-. intros E. symmetry in E. revert E.
      now apply (Hother j).
    + rewrite get_set_eq in Hj. rewrite get_set_ne in Hi by assumption.
      injection Hj as <-. now apply (Hother i).
    + rewrite get_set_ne in Hi, Hj by assumption. eapply Hu; eauto.
  - (* deleteCommand *)
    intros i j ci cj Hi Hj Hij. simpl in Hi, Hj.
    apply get_delete_Some in Hi as [_ Hi]; auto.
    apply get_delete_Some in Hj as [_ Hj]; auto.
    eapply Hu; eauto.
Qed.

Lemma namesUnique_run ops :
  forall s, wellKeyed s -> namesUnique s -> allNameSafe ops s = true ->
            namesUnique (run ops s).
Proof.
  induction ops as [|o ops IH]; simpl; intros s Hk Hu Hsafe; auto.
  apply andb_true_iff in Hsafe as [Ho Hrest].
  apply IH; auto using wellKeyed_step, namesUnique_step.
Qed.

Lemma namesUnique_blank : namesUnique blank.
Proof. intros i j ci cj Hi. discriminate Hi. Qed.

Lemma namesUnique_constructor clk : namesUnique (constructor clk).
Proof.
  rewrite constructor_run.
  apply namesUnique_run;
    [apply wellKeyed_blank | apply namesUnique_blank | reflexivity].
Qed.

(** The counter never goes down, and a create hands out its value. *)
Lemma counter_step o s : commandsIdCounter s <= commandsIdCounter (step o s).
Proof.
  destruct o; store_case; try lia.
  destruct (JsMap.get id (commands s)); simpl; lia.
Qed.

Lemma assignedIds_sorted ops :
  forall s,
    StronglySorted Z.lt (assignedIds ops s) /\
    Forall (fun i => commandsIdCounter s <= i) (assignedIds ops s).
Proof.
  induction ops as [|o ops IH]; simpl; intros s.
  - split; constructor.
  - destruct (IH (step o s)) as [Hs Hall].
    assert (Hall' : Forall (fun i => commandsIdCounter s <= i)
                      (assignedIds ops (step o s))).
    { eapply Forall_impl; [|exact Hall].
      simpl. intros i Hi. pose proof (counter_step o s). lia. }
    destruct o; simpl; auto.
    split; constructor; auto; [|lia].
    eapply Forall_impl; [|exact Hall].
    unfold step, exec, createCommand. simpl. intros; lia.
Qed.

Lemma counter_run ops :
  forall s, commandsIdCounter s <= commandsIdCounter (run ops s).
Proof.
  induction ops as [|o ops IH]; simpl; intros s; [lia|].
  pose proof (counter_step o s). pose proof (IH (step o s)). lia.
Qed.

(** Every id handed out so far is below the counter. *)
Lemma assignedIds_below ops :
  forall s,
    Forall (fun i => i < commandsIdCounter (run ops s)) (assignedIds ops s).
Proof.
  induction ops as [|o ops IH]; simpl; intros s; [constructor|].
  destruct o; simpl; auto.
  constructor; [|apply IH].
  pose proof (counter_run ops (step (OpCreateCommand command now) s)) as H.
  assert (E : commandsIdCounter (step (OpCreateCommand command now) s)
              = commandsIdCounter s + 1) by reflexivity.
  change (Command.id (eval (createCommand command now) s))
    with (commandsIdCounter s).
  change (exec (createCommand command now) s)
    with (step (OpCreateCommand command now) s).
  lia.
Qed.

Lemma StronglySorted_lt_NoDup (l : list Z) :
  StronglySorted Z.lt l -> NoDup l.
Proof.
  induction 1 as [|x l Hs IH Hall]; constructor; auto.
  intros Hin. rewrite Forall_forall in Hall. apply Hall in Hin. lia.
Qed.

End Invariant.

(* ================================================================= *)
(** ** Commands: uniqueness of ids and names *)

(** C1, as amended. Along every run of a constructed store the ids are
    unique: each key of the map occurs once and is the [id] of its entry.
    The store does not check names; whenever every [createCommand] of the
    run brings a name that no stored command has, and every
    [updateCommand] supplies no name or one that no other stored command
    has, distinct commands of the resulting store have distinct names. *)
Theorem command_uniqueness_along_safe_runs (clk : nat -> Z) (ops : list Op) :
  let s := run ops (constructor clk) in
  idsUnique s /\
  (allNameSafe ops (constructor clk) = true -> namesUnique s).
Proof.
  simpl. split.
  - destruct (wellKeyed_run ops _ (wellKeyed_constructor clk))
      as (Hnd & _ & Hid).
    split; assumption.
  - apply namesUnique_run.
    + apply wellKeyed_constructor.
    + apply namesUnique_constructor.
Qed.

Lemma command_uniqueness_along_safe_runs_witness :
  let clk := fun k => Z.of_nat k in
  let ops :=
    [ OpCreateCommand (InsertCommand.mk "echo" "d" "/echo" true) 10;
      OpUpdateCommand 1 (PartialInsertCommand.mk None None None (Some false));
      OpDeleteCommand 2;
      OpUpdateCommand 3
        (PartialInsertCommand.mk (Some "help") None None None);
      OpCreateCommand (InsertCommand.mk "uptime" "d" "/uptime" true) 11 ] in
  allNameSafe ops (constructor clk) = true /\
  namesUnique (run ops (constructor clk)).
Proof.
  intros clk ops. split.
  - vm_compute. reflexivity.
  - apply (proj2 (command_uniqueness_along_safe_runs clk ops)).
    vm_compute. reflexivity.
Defined.

(** C1, as stated, fails: [createCommand] stores a second command named
    "ping" next to the default one, and [updateCommand] renames "help" to
    "ping"; both stores are reachable and hold two distinct commands of one
    name. *)
Lemma name_uniqueness_broken_by_create_and_update :
  let s0 := constructor (fun k => Z.of_nat k) in
  let s1 :=
    run [OpCreateCommand (InsertCommand.mk "ping" "d" "/ping" true) 10] s0 in
  let s2 :=
    run [OpUpdateCommand 2
           (PartialInsertCommand.mk (Some "ping") None None None)] s0 in
  namesUnique s0 /\
  reachable s1 /\ ~ namesUnique s1 /\
  reachable s2 /\ ~ namesUnique s2.
Proof.
  intros s0 s1 s2. split; [apply namesUnique_constructor|].
  split; [eexists _, _; reflexivity|].
  split.
  { intros H. apply (H 1 5 _ _ eq_refl eq_refl); [lia|reflexivity]. }
  split; [eexists _, _; reflexivity|].
  intros H. apply (H 1 2 _ _ eq_refl eq_refl); [lia|reflexivity].
Qed.

(** C2. Whatever calls are made on a store, deletes among them, the ids
    that the successive [createCommand] calls assign (the constructor's own
    calls first) are strictly increasing and none occurs twice; a further
    [createCommand] assigns an id above every id assigned before it, whether
    or not the command that held it is still in the store. *)
Theorem assigned_ids_strictly_increasing (clk : nat -> Z) (ops : list Op) :
  let ids := assignedIds (constructorOps clk ++ ops) blank in
  StronglySorted Z.lt ids /\ NoDup ids /\
  forall command now,
    let s := run ops (constructor clk) in
    let id := Command.id (eval (createCommand command now) s) in
    Forall (fun i => i < id) ids.
Proof.
  simpl.
  destruct (assignedIds_sorted (constructorOps clk ++ ops) blank) as [Hs _].
  split; [exact Hs|]. split; [now apply StronglySorted_lt_NoDup|].
  intros command now.
  pose proof (assignedIds_below (constructorOps clk ++ ops) blank) as H.
  rewrite run_app, <- constructor_run in H. exact H.
Qed.

(** The id of a create is the counter, above every key in the store, and
    a delete does not bring the counter back. *)
Lemma createCommand_id_fresh (s : MemStorage) command now :
  reachable s ->
  let id := Command.id (eval (createCommand command now) s) in
  JsMap.get id (commands s) = None /\
  Forall (fun k => k < id) (JsMap.keys (commands s)).
Proof.
  intros (clk & ops & ->). simpl.
  destruct (wellKeyed_run ops _ (wellKeyed_constructor clk))
    as (_ & Hlt & _).
  split.
  - apply JsMapFacts.get_None. intros Hin. apply Hlt in Hin. lia.
  - apply Forall_forall. exact Hlt.
Qed.

Example ids_after_deletes :
  assignedIds
    (constructorOps (fun k => Z.of_nat k) ++
     [ OpDeleteCommand 4;
       OpCreateCommand (InsertCommand.mk "a" "d" "/a" true) 10;
       OpDeleteCommand 5; OpDeleteCommand 1;
       OpCreateCommand (InsertCommand.mk "b" "d" "/b" true) 11 ])
    blank
  = [1; 2; 3; 4; 5; 6].
Proof. reflexivity. Qed.

(* ================================================================= *)
(** ** Logs *)

Section LogFacts.
Import SortFacts.

Lemma firstn_min {A} (n : Z) (l : list A) :
  0 <= n ->
  firstn (Z.to_nat (Z.min n (Z.of_nat (List.length l)))) l
  = firstn (Z.to_nat n) l.
Proof.
  intros Hn. destruct (Z.le_gt_cases n (Z.of_nat (List.length l))).
  - now rewrite Z.min_l.
  - rewrite Z.min_r by lia. rewrite Nat2Z.id.
    rewrite firstn_all. symmetry. apply firstn_all2. lia.
Qed.

Lemma getLogs_pure (limit : option JsNum.t) (s : MemStorage) :
  exec (getLogs limit) s = s.
Proof. reflexivity. Qed.

Lemma getLogs_unlimited (s : MemStorage) :
  eval (getLogs None) s = JsArray.sort byTimestampDesc (logs s).
Proof. reflexivity. Qed.

Lemma getLogs_positive (n : Z) (s : MemStorage) :
  0 < n ->
  eval (getLogs (Some (JsNum.Int n))) s
  = firstn (Z.to_nat n) (JsArray.sort byTimestampDesc (logs s)).
Proof.
  intros Hn. unfold eval, getLogs, JsArray.slice0. simpl.
  destruct (n =? 0) eqn:E; [apply Z.eqb_eq in E; lia|]. simpl.
  destruct (n <? 0) eqn:E'; [apply Z.ltb_lt in E'; lia|].
  apply firstn_min. lia.
Qed.

End LogFacts.

(** C3, as amended. For every store and every positive integer limit,
    [getLogs(limit)] is the first [limit] entries of the log sequence
    sorted by descending timestamp: a reordering of the stored logs in
    which every entry is at least as recent as the ones after it.  It is
    the whole sequence when the limit reaches the log count, and every
    entry returned is at least as recent as every entry left out. *)
Theorem getLogs_positive_limit (s : MemStorage) (n : Z) :
  0 < n ->
  let sorted := JsArray.sort byTimestampDesc (logs s) in
  let r := eval (getLogs (Some (JsNum.Int n))) s in
  Permutation sorted (logs s) /\ descending sorted /\
  r = firstn (Z.to_nat n) sorted /\
  (Z.of_nat (List.length (logs s)) <= n -> r = sorted) /\
  (forall a b, In a r -> In b (skipn (Z.to_nat n) sorted) ->
               Log.timestamp b <= Log.timestamp a).
Proof.
  intros Hn sorted r.
  assert (Hr : r = firstn (Z.to_nat n) sorted)
    by (apply getLogs_positive; exact Hn).
  split; [symmetry; apply SortFacts.sort_perm|].
  split; [apply SortFacts.sort_descending|].
  split; [exact Hr|].
  split.
  - intros Hlen. rewrite Hr. apply firstn_all2.
    unfold sorted. rewrite SortFacts.sort_length. lia.
  - intros a b Ha Hb. rewrite Hr in Ha.
    eapply SortFacts.descending_firstn_skipn; eauto.
    apply SortFacts.sort_descending.
Qed.

Lemma getLogs_positive_limit_witness :
  let log := InsertLog.mk "System" "-" "-" "tick" in
  let s :=
    run [ OpCreateLog log 30; OpCreateLog log 10; OpCreateLog log 50;
          OpCreateLog log 20; OpCreateLog log 40 ]
      (constructor (fun k => Z.of_nat k)) in
  0 < 2 /\
  eval (getLogs (Some (JsNum.Int 2))) s
  = [ Log.mk 3 "System" "-" "-" "tick" 50;
      Log.mk 5 "System" "-" "-" "tick" 40 ].
Proof.
  intros log s. split; [lia|].
  destruct (getLogs_positive_limit s 2) as (_ & _ & Hr & _); [lia|].
  rewrite Hr. reflexivity.
Defined.

(** C3, as stated, fails at limit 0: the limit is tested for truthiness,
    [0] is falsy, and the whole sorted sequence is returned where the first
    0 entries are none. *)
Lemma getLogs_zero_limit_returns_all :
  let log := InsertLog.mk "System" "-" "-" "tick" in
  let s :=
    run [OpCreateLog log 10; OpCreateLog log 20]
      (constructor (fun k => Z.of_nat k)) in
  eval (getLogs (Some (JsNum.Int 0))) s
  = [ Log.mk 2 "System" "-" "-" "tick" 20;
      Log.mk 1 "System" "-" "-" "tick" 10 ] /\
  eval (getLogs (Some (JsNum.Int 0))) s
  <> firstn (Z.to_nat 0) (JsArray.sort byTimestampDesc (logs s)).
Proof.
  intros log s. split; [reflexivity|]. discriminate.
Qed.

(** C4. For every store, [getLogs()] returns the stored logs reordered so
    that, of two entries with distinct timestamps, the one returned first
    has the strictly greater timestamp (entries with one timestamp keep
    their stored order); the retrieval, with or without a limit, leaves the
    store, and so its log entries, as they were. *)
Theorem getLogs_descending_and_pure (s : MemStorage) :
  let r := eval (getLogs None) s in
  (forall limit, exec (getLogs limit) s = s) /\
  Permutation r (logs s) /\
  (forall t, stamped t r = stamped t (logs s)) /\
  (forall (i j : nat) a b,
      (i < j)%nat -> nth_error r i = Some a -> nth_error r j = Some b ->
      Log.timestamp a <> Log.timestamp b ->
      Log.timestamp b < Log.timestamp a).
Proof.
  simpl. split; [intros; reflexivity|].
  rewrite getLogs_unlimited.
  split; [symmetry; apply SortFacts.sort_perm|].
  split; [intros t; apply SortFacts.sort_stamped|].
  intros i j a b Hij Hi Hj Hne.
  pose proof (SortFacts.descending_nth _ (SortFacts.sort_descending (logs s))
                i j a b Hij Hi Hj).
  lia.
Qed.

Lemma getLogs_descending_and_pure_witness :
  let log := InsertLog.mk "System" "-" "-" "tick" in
  let s :=
    run [OpCreateLog log 10; OpCreateLog log 30; OpCreateLog log 20]
      (constructor (fun k => Z.of_nat k)) in
  let a := Log.mk 2 "System" "-" "-" "tick" 30 in
  let b := Log.mk 3 "System" "-" "-" "tick" 20 in
  nth_error (eval (getLogs None) s) 0 = Some a /\
  nth_error (eval (getLogs None) s) 1 = Some b /\
  Log.timestamp b < Log.timestamp a.
Proof.
  intros log s a b.
  split; [reflexivity|]. split; [reflexivity|].
  destruct (getLogs_descending_and_pure s) as (_ & _ & _ & H).
  apply (H 0%nat 1%nat a b); [lia|reflexivity|reflexivity|].
  simpl. lia.
Defined.

(* ================================================================= *)
(** ** Partial update of a command *)

(** C5. For a command [c] stored under id [I], [updateCommand(I, p)]
    returns and stores the command whose [name], [description], [usage] and
    [active] are those that [p] supplies and those of [c] where it supplies
    none, with the [id] and [createdAt] of [c]; every other command, the
    order of the map, the logs, the statistics and both counters stay as
    they were.  For [p = {active: false}] the result has [active = false]
    and the five other fields of [c]. *)
Theorem updateCommand_merges_supplied_fields
    (s : MemStorage) (I : Z) (c : Command.t) (p : PartialInsertCommand.t) :
  JsMap.get I (commands s) = Some c ->
  let pick {T} (supplied : option T) (old : T) :=
    match supplied with Some v => v | None => old end in
  let off := PartialInsertCommand.mk None None None (Some false) in
  (exists c',
      eval (updateCommand I off) s = Some c' /\
      Command.active c' = false /\
      Command.id c' = Command.id c /\
      Command.name c' = Command.name c /\
      Command.description c' = Command.description c /\
      Command.usage c' = Command.usage c /\
      Command.createdAt c' = Command.createdAt c) /\
  (exists c',
      eval (updateCommand I p) s = Some c' /\
      Command.id c' = Command.id c /\
      Command.createdAt c' = Command.createdAt c /\
      Command.name c' = pick (PartialInsertCommand.name p) (Command.name c) /\
      Command.description c'
      = pick (PartialInsertCommand.description p) (Command.description c) /\
      Command.usage c'
      = pick (PartialInsertCommand.usage p) (Command.usage c) /\
      Command.active c'
      = pick (PartialInsertCommand.active p) (Command.active c) /\
      let s' := exec (updateCommand I p) s in
      JsMap.get I (commands s') = Some c' /\
      (forall J, J <> I ->
                 JsMap.get J (commands s') = JsMap.get J (commands s)) /\
      JsMap.keys (commands s') = JsMap.keys (commands s) /\
      logs s' = logs s /\ botStats s' = botStats s /\
      commandsIdCounter s' = commandsIdCounter s /\
      logsIdCounter s' = logsIdCounter s).
Proof.
  intros Hget pick off. split.
  - exists (spreadCommand c off).
    unfold eval, updateCommand. rewrite Hget. simpl. repeat split.
  - exists (spreadCommand c p).
    unfold eval, exec, updateCommand. rewrite Hget. simpl.
    repeat split.
    + apply JsMapFacts.get_set_eq.
    + intros J HJ. now apply JsMapFacts.get_set_ne.
    + eapply JsMapFacts.keys_set_present; eauto.
Qed.

Lemma updateCommand_merges_supplied_fields_witness :
  let s := constructor (fun k => Z.of_nat k) in
  let c :=
    Command.mk 2 "help"
      "Displays a list of available commands and their usage."
      "/help [command]" true 1 in
  JsMap.get 2 (commands s) = Some c /\
  exists c',
    eval (updateCommand 2
            (PartialInsertCommand.mk None None None (Some false))) s
    = Some c' /\
    Command.active c' = false /\
    Command.id c' = Command.id c /\
    Command.name c' = Command.name c /\
    Command.description c' = Command.description c /\
    Command.usage c' = Command.usage c /\
    Command.createdAt c' = Command.createdAt c.
Proof.
  intros s c. split; [reflexivity|].
  apply (proj1 (updateCommand_merges_supplied_fields s 2 c
                  PartialInsertCommand.none eq_refl)).
Defined.

(* ================================================================= *)
(** ** The test-command endpoint *)

Section TestCommand.

(** The [switch] only reads the store. *)
Lemma simulate_pure commandName command rnd s :
  exec (simulate commandName command rnd) s = s.
Proof.
  unfold simulate.
  repeat match goal with
         | |- context [String.eqb ?a ?b] => destruct (String.eqb a b)
         end; reflexivity.
Qed.

Lemma getCommandByName_None name s :
  eval (getCommandByName name) s = None <->
  forall c, In c (JsMap.values (commands s)) -> Command.name c <> name.
Proof.
  unfold eval, getCommandByName. simpl. split.
  - intros H c Hin. apply (find_none _ _ H) in Hin.
    now apply String.eqb_neq.
  - intros H. destruct (find _ _) as [c|] eqn:E; auto.
    apply find_some in E as [Hin E]. apply String.eqb_eq in E.
    now apply H in Hin.
Qed.

(** What [split(' ')[0]] keeps: the text before the first space. *)
Lemma first_split_space (s : string) :
  let t := JsString.first (JsString.split " " s) in
  (s = t \/ exists rest, s = (t ++ " " ++ rest)%string) /\
  JsString.includes " " t = false.
Proof.
  induction s as [|c s IH]; simpl.
  - split; [now left|reflexivity].
  - destruct (Ascii.eqb c " ") eqn:E; simpl.
    + apply Ascii.eqb_eq in E; subst c. split; [|reflexivity].
      right. now exists s.
    + pose proof (JsStringFacts.split_nonempty " " s) as Hne.
      destruct (JsString.split " " s) as [|w ws]; [congruence|].
      simpl in *. destruct IH as [IH1 IH2]. split.
      * destruct IH1 as [->|[rest ->]]; [now left|right].
        now exists rest.
      * now rewrite E, IH2.
Qed.

(** The command name is the text after a leading slash, up to the first
    space. *)
Lemma commandNameOf_spec (command : string) :
  let text :=
    if JsString.startsWith "/" command then JsString.substring1 command
    else command in
  (text = commandNameOf command \/
   exists rest, text = (commandNameOf command ++ " " ++ rest)%string) /\
  JsString.includes " " (commandNameOf command) = false.
Proof.
  unfold commandNameOf.
  destruct (JsString.startsWith "/" command); apply first_split_space.
Qed.

(** The two ways through the handler for a non-empty text. *)
Lemma testCommandRoute_found s command rnd now c :
  command <> "" ->
  eval (getCommandByName (commandNameOf command)) s = Some c ->
  testCommandRoute (Some command) rnd now s
  = (json 200
       (MessageResponse "Command executed"
          (eval (simulate (commandNameOf command) command rnd) s)),
     exec (createLog (testLog command) now) s).
Proof.
  intros Hne Hfound. apply JsStringFacts.truthy_nonempty in Hne.
  unfold testCommandRoute. rewrite Hne. cbn [negb].
  unfold bind at 1. unfold eval, getCommandByName in Hfound.
  cbn [fst] in Hfound. unfold getCommandByName. rewrite Hfound.
  unfold bind.
  pose proof (simulate_pure (commandNameOf command) command rnd s) as Hp.
  unfold eval, exec in *.
  destruct (simulate (commandNameOf command) command rnd s) as [r s2].
  simpl in Hp. subst s2. reflexivity.
Qed.

Lemma testCommandRoute_unknown s command rnd now :
  command <> "" ->
  eval (getCommandByName (commandNameOf command)) s = None ->
  testCommandRoute (Some command) rnd now s
  = (json 404
       (MessageResponse
          ("Command '" ++ commandNameOf command ++ "' not found")
          ("Unknown command: " ++ commandNameOf command)),
     s).
Proof.
  intros Hne Hnone. apply JsStringFacts.truthy_nonempty in Hne.
  unfold testCommandRoute. rewrite Hne. cbn [negb].
  unfold bind at 1. unfold eval, getCommandByName in Hnone.
  cbn [fst] in Hnone. unfold getCommandByName. rewrite Hnone.
  reflexivity.
Qed.

End TestCommand.

(** C6, as amended. For every non-empty input text whose command name is
    the name of a stored command, the endpoint answers 200 with message
    "Command executed" and appends to the logs one entry of event type
    "Test" whose details are "Tested command: " followed by the text,
    stamped with the current time and the next log id; the commands and the
    statistics are untouched.  For a text whose command name no stored
    command has, and for an empty or missing text, the endpoint answers
    without logging and the store is as it was. *)
Theorem test_command_logs_when_found
    (s : MemStorage) (command : string) (rnd now : Z) :
  (command <> "" ->
   eval (getCommandByName (commandNameOf command)) s <> None ->
   let resp := eval (testCommandRoute (Some command) rnd now) s in
   let s' := exec (testCommandRoute (Some command) rnd now) s in
   status resp = 200 /\
   (exists response, body resp = MessageResponse "Command executed" response) /\
   logs s'
   = (logs s ++
      [Log.mk (logsIdCounter s) "Test" "Dashboard" "User"
         ("Tested command: " ++ command) now])%list /\
   commands s' = commands s /\ botStats s' = botStats s) /\
  (eval (getCommandByName (commandNameOf command)) s = None ->
   exec (testCommandRoute (Some command) rnd now) s = s) /\
  exec (testCommandRoute (Some "") rnd now) s = s /\
  exec (testCommandRoute None rnd now) s = s.
Proof.
  split; [|split; [|split; reflexivity]].
  - intros Hne Hfound resp s'. subst resp s'.
    destruct (eval (getCommandByName (commandNameOf command)) s)
      as [c|] eqn:E; [|congruence].
    unfold eval, exec.
    rewrite (testCommandRoute_found s command rnd now c Hne E). simpl.
    repeat split. eexists; reflexivity.
  - intros Hnone. destruct command as [|a command]; [reflexivity|].
    unfold exec.
    rewrite (testCommandRoute_unknown s _ rnd now) by (discriminate || auto).
    reflexivity.
Qed.

Lemma test_command_logs_when_found_witness :
  let s := constructor (fun k => Z.of_nat k) in
  ("/ping" <> "" /\
   eval (getCommandByName (commandNameOf "/ping")) s <> None /\
   logs (exec (testCommandRoute (Some "/ping") 7 100) s)
   = [Log.mk 1 "Test" "Dashboard" "User" "Tested command: /ping" 100]) /\
  (eval (getCommandByName (commandNameOf "/nonexistent")) s = None /\
   exec (testCommandRoute (Some "/nonexistent") 7 100) s = s).
Proof.
  intros s.
  assert (H1 : "/ping" <> "") by discriminate.
  assert (H2 : eval (getCommandByName (commandNameOf "/ping")) s <> None)
    by discriminate.
  assert (H3 : eval (getCommandByName (commandNameOf "/nonexistent")) s = None)
    by reflexivity.
  split.
  - split; [exact H1|]. split; [exact H2|].
    exact (proj1 (proj2 (proj2
             (proj1 (test_command_logs_when_found s "/ping" 7 100) H1 H2)))).
  - split; [exact H3|].
    exact (proj1 (proj2 (test_command_logs_when_found s "/nonexistent" 7 100))
             H3).
Defined.

(** C6, as stated, fails on an unknown command: the endpoint answers 404
    before the call of [createLog], and no entry is appended. *)
Lemma test_unknown_command_not_logged :
  let s := constructor (fun k => Z.of_nat k) in
  let resp := eval (testCommandRoute (Some "/nonexistent") 7 100) s in
  let s' := exec (testCommandRoute (Some "/nonexistent") 7 100) s in
  status resp = 404 /\ logs s' = [] /\
  ~ exists entry, In entry (logs s') /\ Log.eventType entry = "Test".
Proof.
  simpl. split; [reflexivity|]. split; [reflexivity|].
  intros (entry & Hin & _). exact Hin.
Qed.

(** C7, as amended. For every non-empty input whose command name (the
    text after a leading '/', up to the first space) is the name of no
    stored command, the endpoint answers 404 with the message
    "Command '<name>' not found" and the response "Unknown command: <name>",
    and leaves the store as it was. *)
Theorem test_unknown_command_404
    (s : MemStorage) (command : string) (rnd now : Z) :
  command <> "" ->
  (forall c, In c (JsMap.values (commands s)) ->
             Command.name c <> commandNameOf command) ->
  testCommandRoute (Some command) rnd now s
  = (json 404
       (MessageResponse
          ("Command '" ++ commandNameOf command ++ "' not found")
          ("Unknown command: " ++ commandNameOf command)),
     s).
Proof.
  intros Hne Hnone.
  apply testCommandRoute_unknown; [exact Hne|].
  now apply getCommandByName_None.
Qed.

Lemma test_unknown_command_404_witness :
  let s := constructor (fun k => Z.of_nat k) in
  "/nonexistent" <> "" /\
  testCommandRoute (Some "/nonexistent") 7 100 s
  = (json 404
       (MessageResponse "Command 'nonexistent' not found"
          "Unknown command: nonexistent"),
     s).
Proof.
  intros s.
  assert (H1 : "/nonexistent" <> "") by discriminate.
  split; [exact H1|].
  apply (test_unknown_command_404 s "/nonexistent" 7 100 H1).
  intros c Hin.
  simpl in Hin.
  repeat (destruct Hin as [<-|Hin]; [discriminate|]).
  destruct Hin.
Defined.

(** C7, as stated, fails on the empty text: its command name is the name
    of no stored command, and the endpoint answers 400 "Command is
    required", not 404. *)
Lemma test_empty_command_400 :
  let s := constructor (fun k => Z.of_nat k) in
  (forall c, In c (JsMap.values (commands s)) ->
             Command.name c <> commandNameOf "") /\
  testCommandRoute (Some "") 7 100 s
  = (json 400 (Message "Command is required"), s).
Proof.
  simpl. split; [|reflexivity].
  intros c Hin.
  repeat (destruct Hin as [<-|Hin]; [discriminate|]).
  destruct Hin.
Qed.

(* ================================================================= *)
(** ** The id parameter of the command endpoints *)

(** C8, as amended. The get, update and delete endpoints read the id with
    [parseInt].  When the result is [NaN] the answer is 400 with the
    message "Invalid command ID", produced without a call to the store,
    which is left as it was.  An id that [parseInt] reads as a number, a
    negative one included, passes this check and goes on to the store: the
    get endpoint answers with the command stored under that number, the
    delete endpoint deletes it and answers 204, the update endpoint, when
    the body passes the schema, updates it and answers with the result;
    each answers 404 when no command has the number, and the update
    endpoint answers 400 "Invalid command data" when the body fails. *)
Theorem invalid_command_id_rejected
    (idParam : string) (parsed : option PartialInsertCommand.t) :
  (JsString.parseInt idParam = JsNum.NaN ->
   let invalid := ret (json 400 (Message "Invalid command ID")) in
   (getCommandRoute idParam = invalid /\
    patchCommandRoute idParam parsed = invalid /\
    deleteCommandRoute idParam = invalid) /\
   forall s,
     exec (getCommandRoute idParam) s = s /\
     exec (patchCommandRoute idParam parsed) s = s /\
     exec (deleteCommandRoute idParam) s = s) /\
  (forall id s,
      JsString.parseInt idParam = JsNum.Int id ->
      getCommandRoute idParam s
      = (match JsMap.get id (commands s) with
         | Some c => json 200 (OneCommand c)
         | None => json 404 (Message "Command not found")
         end, s) /\
      deleteCommandRoute idParam s
      = (match JsMap.get id (commands s) with
         | Some _ => mkResponse 204 Empty
         | None => json 404 (Message "Command not found")
         end, exec (deleteCommand id) s) /\
      patchCommandRoute idParam parsed s
      = match parsed with
        | None => (json 400 (MessageErrors "Invalid command data"), s)
        | Some p =>
            (match JsMap.get id (commands s) with
             | Some c => json 200 (OneCommand (spreadCommand c p))
             | None => json 404 (Message "Command not found")
             end, exec (updateCommand id p) s)
        end).
Proof.
  split.
  - intros Hnan invalid.
    assert (H : getCommandRoute idParam = invalid /\
                patchCommandRoute idParam parsed = invalid /\
                deleteCommandRoute idParam = invalid).
    { unfold getCommandRoute, patchCommandRoute, deleteCommandRoute.
      rewrite Hnan. repeat split. }
    split; [exact H|].
    destruct H as (-> & -> & ->). intros s. repeat split.
  - intros id s Hint.
    unfold getCommandRoute, deleteCommandRoute, patchCommandRoute.
    rewrite Hint. split; [|split].
    + unfold bind, getCommand.
      destruct (JsMap.get id (commands s)); reflexivity.
    + unfold bind, exec, deleteCommand, JsMap.has.
      destruct (JsMap.get id (commands s)); reflexivity.
    + destruct parsed as [p|]; [|reflexivity].
      unfold bind, exec, updateCommand.
      destruct (JsMap.get id (commands s)); reflexivity.
Qed.

Lemma invalid_command_id_rejected_witness :
  let s := constructor (fun k => Z.of_nat k) in
  let spaced := (JsString.ofBytes [194; 160] ++ "3")%string in
  (JsString.parseInt "abc" = JsNum.NaN /\
   getCommandRoute "abc" s
   = (json 400 (Message "Invalid command ID"), s)) /\
  (JsString.parseInt spaced = JsNum.Int 3 /\
   status (eval (getCommandRoute spaced) s) = 200 /\
   eval (deleteCommandRoute spaced) s = mkResponse 204 Empty /\
   map Command.id (eval getCommands (exec (deleteCommandRoute spaced) s))
   = [1; 2; 4]).
Proof.
  intros s spaced.
  assert (H1 : JsString.parseInt "abc" = JsNum.NaN) by reflexivity.
  assert (H2 : JsString.parseInt spaced = JsNum.Int 3) by reflexivity.
  split; (split; [assumption|]).
  - destruct (proj1 (invalid_command_id_rejected "abc" None) H1)
      as ((Hget & _) & _).
    rewrite Hget. reflexivity.
  - destruct (proj2 (invalid_command_id_rejected spaced None) 3 s H2)
      as (Hget & Hdel & _).
    unfold eval, exec. rewrite Hget, Hdel. repeat split.
Defined.

(** C8, as stated, fails on a negative id: "-5" does not parse as a
    non-negative integer, yet the get and delete endpoints do not answer
    400: they consult the store and answer 404 "Command not found". *)
Lemma negative_command_id_reaches_store :
  let s := constructor (fun k => Z.of_nat k) in
  JsString.parseInt "-5" = JsNum.Int (-5) /\
  getCommandRoute "-5" s = (json 404 (Message "Command not found"), s) /\
  deleteCommandRoute "-5" s = (json 404 (Message "Command not found"), s) /\
  status (eval (patchCommandRoute "-5" (Some PartialInsertCommand.none)) s)
  = 404.
Proof.
  simpl. repeat split.
Qed.

(* ================================================================= *)
(** ** The limit of the log list *)




(* ================================================================= *)
(** ** The constructed store *)

Lemma botStats_step o s : botStats s <> None -> botStats (step o s) <> None.
Proof.
  destruct o; simpl; auto; try discriminate.
  unfold exec, updateCommand.
  destruct (JsMap.get id (commands s)); auto.
Qed.

Lemma botStats_run ops :
  forall s, botStats s <> None -> botStats (run ops s) <> None.
Proof.
  induction ops as [|o ops IH]; simpl; auto using botStats_step.
Qed.

(** C10. A constructed store holds four commands, "ping", "help", "uptime"
    and "stats", all active, under the ids 1 to 4 and in that order, and
    the statistics record with id 1, 0 servers, 4 commands and latency 0;
    [getCommands] returns the four, and [getBotStats] returns a record
    then and after every later sequence of calls. *)
Theorem constructor_seeds_defaults (clk : nat -> Z) :
  let s := constructor clk in
  eval getCommands s
  = [ Command.mk 1 "ping"
        "Checks the bot's response time and health status." "/ping"
        true (clk 0%nat);
      Command.mk 2 "help"
        "Displays a list of available commands and their usage."
        "/help [command]" true (clk 1%nat);
      Command.mk 3 "uptime"
        "Shows how long the bot has been online without interruption."
        "/uptime" true (clk 2%nat);
      Command.mk 4 "stats"
        "Displays bot statistics including servers, users, and commands."
        "/stats" true (clk 3%nat) ] /\
  JsMap.keys (commands s) = [1; 2; 3; 4] /\
  List.length (eval getCommands s) = 4%nat /\
  eval getBotStats s
  = Some (BotStat.mk 1 "0d 0h 0m" 0 4 "0 MB" 0 (clk 4%nat) (clk 4%nat)) /\
  logs s = [] /\ commandsIdCounter s = 5 /\ logsIdCounter s = 1 /\
  forall ops, eval getBotStats (run ops s) <> None.
Proof.
  simpl. repeat (split; [reflexivity|]).
  intros ops. apply botStats_run. discriminate.
Qed.

(* ================================================================= *)
(** * Further properties of the store *)

(** ** More on the map of commands *)

Module JsMapMore.
Import JsMap JsMapFacts.

Section WithValue.
Context {V : Type}.
Implicit Types (m : JsMap.t V) (k : Z) (v : V).

Lemma delete_absent m k : get k m = None -> delete k m = m.
Proof.
  induction m as [|[k1 v1] m IH]; simpl; auto.
  destruct (k1 =? k); [discriminate|]. intros H. now rewrite IH.
Qed.

Lemma delete_filter m k :
  NoDup (keys m) ->
  delete k m = filter (fun p => negb (fst p =? k)) m.
Proof.
  induction m as [|[k1 v1] m IH]; simpl; intros Hnd; auto.
  inversion Hnd as [|? ? Hk1 Hnd']; subst.
  destruct (k1 =? k) eqn:E; simpl.
  - apply Z.eqb_eq in E; subst k1.
    rewrite <- IH by assumption. symmetry. apply delete_absent.
    now apply get_None.
  - now rewrite IH.
Qed.

Lemma set_set m k v v' : set k v (set k v' m) = set k v m.
Proof.
  induction m as [|[k1 v1] m IH]; simpl.
  - now rewrite Z.eqb_refl.
  - destruct (k1 =? k) eqn:E; simpl.
    + now rewrite Z.eqb_refl.
    + now rewrite E, IH.
Qed.

Lemma set_get_same m k v : get k m = Some v -> set k v m = m.
Proof.
  induction m as [|[k1 v1] m IH]; simpl; [discriminate|].
  destruct (k1 =? k) eqn:E.
  - apply Z.eqb_eq in E. intros [= ->]. now subst.
  - intros H. now rewrite IH.
Qed.

Lemma sorted_delete m k :
  StronglySorted Z.lt (keys m) -> StronglySorted Z.lt (keys (delete k m)).
Proof.
  induction m as [|[k1 v1] m IH]; simpl; intros Hs; auto.
  inversion Hs as [|? ? Hs' Hall]; subst.
  destruct (k1 =? k); simpl; auto.
  constructor; auto.
  rewrite Forall_forall in *. intros x Hx. apply Hall.
  eapply keys_delete; eauto.
Qed.

End WithValue.

End JsMapMore.

Section StoreShapes.
Import JsMapFacts JsMapMore.

Ltac store_case :=
  unfold step, exec, getCommands, getCommand, getCommandByName,
    createCommand, updateCommand, deleteCommand, getLogs, createLog,
    getBotStats, updateBotStats; simpl.

Lemma StronglySorted_snoc (l : list Z) (x : Z) :
  StronglySorted Z.lt l -> Forall (fun k => k < x) l ->
  StronglySorted Z.lt (l ++ [x]).
Proof.
  induction 1 as [|y l Hs IH Hall]; intros Hx; simpl.
  - repeat constructor.
  - inversion Hx; subst. constructor; auto.
    apply Forall_app. split; auto.
Qed.

Lemma keysAscending_blank : keysAscending blank.
Proof. split; [|split]; simpl; [constructor|constructor|lia]. Qed.

Lemma keysAscending_step o s : keysAscending s -> keysAscending (step o s).
Proof.
  intros (Hs & Hb & H1).
  destruct o; store_case; try (split; [|split]; assumption).
  - (* createCommand *)
    assert (Hnone : JsMap.get (commandsIdCounter s) (commands s) = None).
    { apply get_None. intros Hin. rewrite Forall_forall in Hb.
      apply Hb in Hin. lia. }
    rewrite (set_fresh _ _ _ Hnone). unfold keysAscending, JsMap.keys. simpl.
    rewrite map_app. simpl. split; [|split; [|lia]].
    + apply StronglySorted_snoc; auto.
      eapply Forall_impl; [|exact Hb]. simpl; intros; lia.
    + apply Forall_app. split.
      * eapply Forall_impl; [|exact Hb]. simpl; intros; lia.
      * constructor; [lia|constructor].
  - (* updateCommand *)
    destruct (JsMap.get id (commands s)) as [existing|] eqn:Hget; simpl;
      [|split; [|split]; assumption].
    unfold keysAscending. simpl.
    rewrite (keys_set_present _ _ _ _ Hget). split; [|split]; assumption.
  - (* deleteCommand *)
    unfold keysAscending. simpl. split; [|split; [|assumption]].
    + now apply sorted_delete.
    + rewrite Forall_forall in *. intros k Hk. apply Hb.
      eapply keys_delete; eauto.
Qed.

Lemma keysAscending_run ops :
  forall s, keysAscending s -> keysAscending (run ops s).
Proof.
  induction ops as [|o ops IH]; simpl; auto using keysAscending_step.
Qed.

Lemma logIdsConsecutive_blank : logIdsConsecutive blank.
Proof. split; reflexivity. Qed.

Lemma logIdsConsecutive_step o s :
  logIdsConsecutive s -> logIdsConsecutive (step o s).
Proof.
  intros [Hids Hc].
  destruct o; store_case; try (split; assumption).
  - destruct (JsMap.get id (commands s)); simpl; split; assumption.
  - unfold logIdsConsecutive, JsArray.push, idsUpTo in *. simpl.
    rewrite length_app, map_app. simpl.
    rewrite Nat.add_1_r, seq_S, map_app, Hids. simpl.
    split; [|lia]. f_equal. f_equal. lia.
Qed.

Lemma logIdsConsecutive_run ops :
  forall s, logIdsConsecutive s -> logIdsConsecutive (run ops s).
Proof.
  induction ops as [|o ops IH]; simpl; auto using logIdsConsecutive_step.
Qed.

Lemma logs_step o s : exists suffix, logs (step o s) = (logs s ++ suffix)%list.
Proof.
  destruct o; store_case;
    try (exists []; now rewrite app_nil_r).
  - destruct (JsMap.get id (commands s)); simpl;
      exists []; now rewrite app_nil_r.
  - eexists. reflexivity.
Qed.

Lemma find_first {A} (f : A -> bool) (l : list A) (c : A) :
  find f l = Some c ->
  exists pre post,
    l = (pre ++ c :: post)%list /\ f c = true /\
    forall x, In x pre -> f x = false.
Proof.
  induction l as [|y l IH]; simpl; [discriminate|].
  destruct (f y) eqn:E.
  - intros [= ->]. exists [], l. simpl. tauto.
  - intros H. destruct (IH H) as (pre & post & -> & Hc & Hpre).
    exists (y :: pre), post. simpl. split; [reflexivity|]. split; auto.
    intros x [<-|Hx]; auto.
Qed.

Lemma spreadCommand_twice c p :
  spreadCommand (spreadCommand c p) p = spreadCommand c p.
Proof.
  destruct p as [[n|] [d|] [u|] [a|]]; reflexivity.
Qed.

Lemma spreadCommand_none c : spreadCommand c PartialInsertCommand.none = c.
Proof. destruct c; reflexivity. Qed.

Lemma values_filter_id (m : JsMap.t Command.t) (id : Z) :
  (forall k c, In (k, c) m -> Command.id c = k) ->
  JsMap.values (filter (fun p => negb (fst p =? id)) m)
  = filter (fun c => negb (Command.id c =? id)) (JsMap.values m).
Proof.
  unfold JsMap.values.
  induction m as [|[k c] m IH]; simpl; intros Hid; auto.
  rewrite (Hid k c) by auto.
  destruct (k =? id); simpl; rewrite IH; auto.
Qed.

End StoreShapes.

(* ================================================================= *)
(** ** Commands: delete, create, lookup by name, repeated update *)

Lemma ids_of_values (m : JsMap.t Command.t) :
  (forall k c, In (k, c) m -> Command.id c = k) ->
  map Command.id (JsMap.values m) = JsMap.keys m.
Proof.
  unfold JsMap.values, JsMap.keys.
  induction m as [|[k c] m IH]; simpl; intros Hid; auto.
  rewrite (Hid k c), IH; auto.
Qed.

Lemma wellKeyed_In (s : MemStorage) :
  wellKeyed s -> forall k c, In (k, c) (commands s) -> Command.id c = k.
Proof.
  intros (Hnd & _ & Hid) k c Hin. apply Hid.
  now apply JsMapFacts.In_get.
Qed.

(** [deleteCommand] on an id that no command has returns [false] and
    leaves the store as it was. *)
Theorem deleteCommand_unknown_id (s : MemStorage) (id : Z) :
  JsMap.get id (commands s) = None ->
  deleteCommand id s = (false, s).
Proof.
  intros Hnone. unfold deleteCommand, JsMap.has. rewrite Hnone.
  rewrite JsMapMore.delete_absent by assumption. now destruct s.
Qed.

Lemma deleteCommand_unknown_id_witness :
  let s := constructor (fun k => Z.of_nat k) in
  JsMap.get 9 (commands s) = None /\ deleteCommand 9 s = (false, s).
Proof.
  intros s. split; [reflexivity|].
  apply (deleteCommand_unknown_id s 9). reflexivity.
Defined.

(** On a store reached by a run, [deleteCommand] on the id of a stored
    command returns [true]; afterwards the id is absent, every other id
    holds what it held, [getCommands] is the earlier list without that
    command and in the same order, and the id counter has not moved. *)
Theorem deleteCommand_removes_one
    (clk : nat -> Z) (ops : list Op) (id : Z) (c : Command.t) :
  let s := run ops (constructor clk) in
  let s' := exec (deleteCommand id) s in
  JsMap.get id (commands s) = Some c ->
  eval (deleteCommand id) s = true /\
  eval (getCommand id) s' = None /\
  (forall J, J <> id -> eval (getCommand J) s' = eval (getCommand J) s) /\
  eval getCommands s'
  = filter (fun c => negb (Command.id c =? id)) (eval getCommands s) /\
  commandsIdCounter s' = commandsIdCounter s /\
  logs s' = logs s /\ botStats s' = botStats s.
Proof.
  intros s s' Hget.
  pose proof (wellKeyed_run ops _ (wellKeyed_constructor clk)) as Hk.
  fold s in Hk. pose proof (wellKeyed_In s Hk) as Hin.
  destruct Hk as (Hnd & _ & _).
  unfold s', eval, exec, deleteCommand, getCommand, getCommands, JsMap.has.
  simpl. rewrite Hget. split; [reflexivity|].
  split; [now apply JsMapFacts.get_delete_eq|].
  split; [intros J HJ; now apply JsMapFacts.get_delete_ne|].
  split; [|repeat split].
  rewrite JsMapMore.delete_filter by assumption.
  now apply values_filter_id.
Qed.

Lemma deleteCommand_removes_one_witness :
  let clk := fun k => Z.of_nat k in
  let s := run [] (constructor clk) in
  JsMap.get 2 (commands s)
  = Some (Command.mk 2 "help"
            "Displays a list of available commands and their usage."
            "/help [command]" true 1) /\
  map Command.id (eval getCommands (exec (deleteCommand 2) s)) = [1; 3; 4].
Proof.
  intros clk s. split; [reflexivity|].
  destruct (deleteCommand_removes_one clk [] 2 _ eq_refl)
    as (_ & _ & _ & H & _).
  fold s in H. rewrite H. reflexivity.
Defined.

(** On a store reached by a run, [createCommand] returns the command made
    of the given fields, the counter as id and the clock reading as
    [createdAt]; afterwards [getCommand] of that id returns it,
    [getCommands] is the earlier list with it added at the end, and every
    other id holds what it held. *)
Theorem createCommand_then_lookup
    (clk : nat -> Z) (ops : list Op) (command : InsertCommand.t) (now : Z) :
  let s := run ops (constructor clk) in
  let c := eval (createCommand command now) s in
  let s' := exec (createCommand command now) s in
  c = Command.mk (commandsIdCounter s)
        (InsertCommand.name command) (InsertCommand.description command)
        (InsertCommand.usage command) (InsertCommand.active command) now /\
  eval (getCommand (Command.id c)) s' = Some c /\
  eval getCommands s' = (eval getCommands s ++ [c])%list /\
  (forall J, J <> Command.id c ->
             eval (getCommand J) s' = eval (getCommand J) s) /\
  commandsIdCounter s' = Command.id c + 1.
Proof.
  intros s c s'.
  destruct (wellKeyed_run ops _ (wellKeyed_constructor clk)) as (_ & Hlt & _).
  fold s in Hlt.
  assert (Hnone : JsMap.get (commandsIdCounter s) (commands s) = None).
  { apply JsMapFacts.get_None. intros Hin. apply Hlt in Hin. lia. }
  unfold c, s', eval, exec, createCommand, getCommand, getCommands. simpl.
  split; [reflexivity|].
  split; [apply JsMapFacts.get_set_eq|].
  split.
  - rewrite (JsMapFacts.set_fresh _ _ _ Hnone).
    unfold JsMap.values. now rewrite map_app.
  - split; [|reflexivity]. intros J HJ. now apply JsMapFacts.get_set_ne.
Qed.

(** [getCommandByName] returns the first command, in the order of
    [getCommands], that has the name: no command listed before it has. *)
Theorem getCommandByName_first_match
    (s : MemStorage) (name : string) (c : Command.t) :
  eval (getCommandByName name) s = Some c ->
  exists pre post,
    eval getCommands s = (pre ++ c :: post)%list /\
    Command.name c = name /\
    forall x, In x pre -> Command.name x <> name.
Proof.
  unfold eval, getCommandByName, getCommands. simpl. intros H.
  destruct (find_first _ _ _ H) as (pre & post & Hl & Hc & Hpre).
  exists pre, post. split; [exact Hl|]. split.
  - now apply String.eqb_eq.
  - intros x Hx. apply String.eqb_neq. now apply Hpre.
Qed.

Lemma getCommandByName_first_match_witness :
  let s :=
    run [OpCreateCommand (InsertCommand.mk "help" "again" "/help" false) 10]
      (constructor (fun k => Z.of_nat k)) in
  let c :=
    Command.mk 2 "help"
      "Displays a list of available commands and their usage."
      "/help [command]" true 1 in
  eval (getCommandByName "help") s = Some c /\
  exists pre post,
    eval getCommands s = (pre ++ c :: post)%list /\
    Command.name c = "help" /\
    forall x, In x pre -> Command.name x <> "help".
Proof.
  intros s c. split; [reflexivity|].
  apply (getCommandByName_first_match s "help" c). reflexivity.
Defined.

(** [updateCommand] on an id that no command has returns [undefined] and
    leaves the store as it was. *)
Theorem updateCommand_unknown_id
    (s : MemStorage) (id : Z) (p : PartialInsertCommand.t) :
  JsMap.get id (commands s) = None ->
  updateCommand id p s = (None, s).
Proof.
  intros Hnone. unfold updateCommand. now rewrite Hnone.
Qed.

Lemma updateCommand_unknown_id_witness :
  let s := constructor (fun k => Z.of_nat k) in
  JsMap.get 0 (commands s) = None /\
  updateCommand 0 (PartialInsertCommand.mk (Some "x") None None None) s
  = (None, s).
Proof.
  intros s. split; [reflexivity|].
  apply (updateCommand_unknown_id s 0). reflexivity.
Defined.

(** Applying one patch twice is applying it once: the second
    [updateCommand] returns what the first returned and leaves the store
    of the first; and the empty patch changes nothing in the store. *)
Theorem updateCommand_idempotent
    (s : MemStorage) (id : Z) (p : PartialInsertCommand.t) :
  updateCommand id p (exec (updateCommand id p) s)
  = (eval (updateCommand id p) s, exec (updateCommand id p) s) /\
  exec (updateCommand id PartialInsertCommand.none) s = s.
Proof.
  unfold eval, exec, updateCommand.
  destruct (JsMap.get id (commands s)) as [c|] eqn:Hget; simpl.
  - rewrite JsMapFacts.get_set_eq, spreadCommand_twice, JsMapMore.set_set.
    split; [reflexivity|].
    rewrite spreadCommand_none, JsMapMore.set_get_same by assumption.
    now destruct s.
  - rewrite Hget. split; reflexivity.
Qed.

(** After any run, [getCommands] lists the commands in strictly
    increasing id order, each id at least 1 and below the id counter: the
    order of insertion is the order of the ids. *)
Theorem commands_listed_in_id_order (clk : nat -> Z) (ops : list Op) :
  let s := run ops (constructor clk) in
  let ids := map Command.id (eval getCommands s) in
  StronglySorted Z.lt ids /\
  Forall (fun k => 1 <= k < commandsIdCounter s) ids.
Proof.
  intros s ids.
  assert (Hids : ids = JsMap.keys (commands s)).
  { apply ids_of_values, wellKeyed_In.
    apply wellKeyed_run, wellKeyed_constructor. }
  assert (Ha : keysAscending s).
  { unfold s. rewrite constructor_run.
    apply keysAscending_run, keysAscending_run, keysAscending_blank. }
  rewrite Hids. destruct Ha as (H1 & H2 & _). split; assumption.
Qed.

(* ================================================================= *)
(** ** Logs: ids, growth, the newest entry, a negative limit *)

(** After any run the [k]-th stored log entry has id [k]: log ids are
    1, 2, ..., n in stored order, and the log counter is n + 1. *)
Theorem log_ids_consecutive (clk : nat -> Z) (ops : list Op) :
  let s := run ops (constructor clk) in
  map Log.id (logs s) = idsUpTo (List.length (logs s)) /\
  logsIdCounter s = Z.of_nat (List.length (logs s)) + 1.
Proof.
  simpl. rewrite constructor_run.
  apply logIdsConsecutive_run, logIdsConsecutive_run, logIdsConsecutive_blank.
Qed.

(** No method removes, changes or reorders a stored log entry: after any
    sequence of calls the log array is the earlier one with entries added
    at the end. *)
Theorem logs_append_only (ops : list Op) (s : MemStorage) :
  exists suffix, logs (run ops s) = (logs s ++ suffix)%list.
Proof.
  revert s. induction ops as [|o ops IH]; simpl; intros s.
  - exists []. now rewrite app_nil_r.
  - destruct (IH (step o s)) as [suf1 H1].
    destruct (logs_step o s) as [suf0 H0].
    exists (suf0 ++ suf1)%list. now rewrite H1, H0, app_assoc.
Qed.

Section NewestFirst.
Import SortFacts.

Lemma stamped_none (t : Z) (l : list Log.t) :
  Forall (fun x => Log.timestamp x < t) l -> stamped t l = [].
Proof.
  unfold stamped. induction 1 as [|x l Hx Hl IH]; simpl; auto.
  destruct (Log.timestamp x =? t) eqn:E; auto.
  apply Z.eqb_eq in E. lia.
Qed.

Lemma sort_push_newest (l : list Log.t) (x : Log.t) :
  Forall (fun y => Log.timestamp y < Log.timestamp x) l ->
  JsArray.sort byTimestampDesc (JsArray.push x l)
  = x :: JsArray.sort byTimestampDesc l.
Proof.
  intros Hnew. symmetry. apply sort_unique.
  - constructor; [apply sort_descending|].
    eapply Permutation_Forall; [apply sort_perm|].
    eapply Forall_impl; [|exact Hnew]. simpl; intros; lia.
  - intros t. unfold JsArray.push, stamped. rewrite filter_app. simpl.
    fold (stamped t (JsArray.sort byTimestampDesc l)). rewrite sort_stamped.
    fold (stamped t l).
    destruct (Log.timestamp x =? t) eqn:E.
    + apply Z.eqb_eq in E. subst t. now rewrite stamped_none.
    + now rewrite app_nil_r.
Qed.

End NewestFirst.

(** A log created at a time later than every stored timestamp heads the
    list that [getLogs()] returns next, before the entries it returned
    until then. *)
Theorem createLog_newest_first (s : MemStorage) (log : InsertLog.t) (now : Z) :
  Forall (fun l => Log.timestamp l < now) (logs s) ->
  eval (getLogs None) (exec (createLog log now) s)
  = eval (createLog log now) s :: eval (getLogs None) s.
Proof.
  intros Hnew. unfold eval, exec, getLogs, createLog. simpl.
  now apply sort_push_newest.
Qed.

Lemma createLog_newest_first_witness :
  let log := InsertLog.mk "System" "-" "-" "tick" in
  let s :=
    run [OpCreateLog log 30; OpCreateLog log 10]
      (constructor (fun k => Z.of_nat k)) in
  Forall (fun l => Log.timestamp l < 31) (logs s) /\
  map Log.id (eval (getLogs None) (exec (createLog log 31) s)) = [3; 1; 2].
Proof.
  intros log s.
  assert (H : Forall (fun l => Log.timestamp l < 31) (logs s)).
  { repeat constructor. }
  split; [exact H|].
  rewrite (createLog_newest_first s log 31 H). reflexivity.
Defined.

(** A negative limit [n] counts from the end: [getLogs(n)] returns the
    sorted sequence without its last [-n] entries, none at all when the
    store holds no more than [-n] logs. *)
Theorem getLogs_negative_limit (s : MemStorage) (n : Z) :
  n < 0 ->
  let r := eval (getLogs (Some (JsNum.Int n))) s in
  let keep := (List.length (logs s) - Z.to_nat (- n))%nat in
  r = firstn keep (eval (getLogs None) s) /\ List.length r = keep.
Proof.
  intros Hn r keep.
  assert (Hr : r = firstn keep (eval (getLogs None) s)).
  { unfold r, keep, eval, getLogs, JsArray.slice0. simpl.
    destruct (n =? 0) eqn:E; [apply Z.eqb_eq in E; lia|]. simpl.
    destruct (n <? 0) eqn:E'; [|apply Z.ltb_ge in E'; lia].
    rewrite SortFacts.sort_length. f_equal. lia. }
  split; [exact Hr|]. rewrite Hr, length_firstn.
  unfold eval, getLogs. simpl. rewrite SortFacts.sort_length.
  unfold keep. lia.
Qed.

Lemma getLogs_negative_limit_witness :
  let log := InsertLog.mk "System" "-" "-" "tick" in
  let s :=
    run [OpCreateLog log 10; OpCreateLog log 30; OpCreateLog log 20]
      (constructor (fun k => Z.of_nat k)) in
  -1 < 0 /\
  map Log.timestamp (eval (getLogs (Some (JsNum.Int (-1)))) s) = [30; 20].
Proof.
  intros log s. split; [lia|].
  destruct (getLogs_negative_limit s (-1)) as [Hr _]; [lia|].
  rewrite Hr. reflexivity.
Defined.

(* ================================================================= *)
(** ** Statistics and the independence of the three collections *)

Lemma botStats_kept o s : writesStats o = false -> botStats (step o s) = botStats s.
Proof.
  destruct o; simpl; try reflexivity; try discriminate.
  intros _. unfold exec, updateCommand.
  destruct (JsMap.get id (commands s)); reflexivity.
Qed.

Lemma botStats_id_step o s :
  (exists b, botStats s = Some b /\ BotStat.id b = 1) ->
  exists b, botStats (step o s) = Some b /\ BotStat.id b = 1.
Proof.
  intros H. destruct (writesStats o) eqn:E.
  - destruct o; try discriminate. simpl. eexists. split; reflexivity.
  - now rewrite botStats_kept.
Qed.

Lemma botStats_id_run ops :
  forall s,
    (exists b, botStats s = Some b /\ BotStat.id b = 1) ->
    exists b, botStats (run ops s) = Some b /\ BotStat.id b = 1.
Proof.
  induction ops as [|o ops IH]; simpl; intros s Hs; auto.
  apply IH. now apply botStats_id_step.
Qed.

Lemma botStats_kept_run ops :
  forall s,
    forallb (fun o => negb (writesStats o)) ops = true ->
    botStats (run ops s) = botStats s.
Proof.
  induction ops as [|o ops IH]; simpl; intros s Hops; auto.
  apply andb_true_iff in Hops as [Ho Hops].
  apply negb_true_iff in Ho.
  rewrite IH by assumption. now apply botStats_kept.
Qed.

(** The statistics are one record, replaced as a whole.  After any run
    [getBotStats] returns a record whose id is 1; and once
    [updateBotStats(stats)] has been called, [getBotStats] returns exactly
    [{ id: 1, ...stats }] for as long as no later call updates the
    statistics, whatever is done to commands and logs and whatever the
    record was before. *)
Theorem botStats_replaced_and_kept :
  (forall clk ops,
      exists b, eval getBotStats (run ops (constructor clk)) = Some b /\
                BotStat.id b = 1) /\
  (forall s stats ops,
      forallb (fun o => negb (writesStats o)) ops = true ->
      eval getBotStats (run ops (exec (updateBotStats stats) s))
      = Some (BotStat.mk 1
                (InsertBotStat.uptime stats) (InsertBotStat.servers stats)
                (InsertBotStat.commands stats)
                (InsertBotStat.memoryUsage stats)
                (InsertBotStat.apiLatency stats)
                (InsertBotStat.startedAt stats)
                (InsertBotStat.updatedAt stats))).
Proof.
  split.
  - intros clk ops. unfold eval, getBotStats. simpl.
    apply botStats_id_run. eexists. split; reflexivity.
  - intros s stats ops Hops. unfold eval, getBotStats. simpl.
    now rewrite botStats_kept_run.
Qed.

Lemma botStats_replaced_and_kept_witness :
  let stats := InsertBotStat.mk "1d 0h 0m" 3 9 "12 MB" 40 100 200 in
  let ops :=
    [ OpCreateCommand (InsertCommand.mk "echo" "d" "/echo" true) 10;
      OpDeleteCommand 1;
      OpCreateLog (InsertLog.mk "System" "-" "-" "tick") 11 ] in
  let s := constructor (fun k => Z.of_nat k) in
  forallb (fun o => negb (writesStats o)) ops = true /\
  eval getBotStats (run ops (exec (updateBotStats stats) s))
  = Some (BotStat.mk 1 "1d 0h 0m" 3 9 "12 MB" 40 100 200).
Proof.
  intros stats ops s. split; [reflexivity|].
  apply (proj2 botStats_replaced_and_kept s stats ops). reflexivity.
Defined.

(** The three collections are independent.  The command methods leave
    logs, statistics and the log counter as they were; [createLog] leaves
    commands, statistics and the command counter; [updateBotStats] leaves
    commands, logs and both counters; the five read methods leave the
    whole store.  In particular the [commands] count kept in the
    statistics does not follow [createCommand] or [deleteCommand]. *)
Theorem collections_independent (o : Op) (s : MemStorage) :
  let s' := step o s in
  match o with
  | OpCreateCommand _ _ | OpUpdateCommand _ _ | OpDeleteCommand _ =>
      logs s' = logs s /\ botStats s' = botStats s /\
      logsIdCounter s' = logsIdCounter s
  | OpCreateLog _ _ =>
      commands s' = commands s /\ botStats s' = botStats s /\
      commandsIdCounter s' = commandsIdCounter s
  | OpUpdateBotStats _ =>
      commands s' = commands s /\ logs s' = logs s /\
      commandsIdCounter s' = commandsIdCounter s /\
      logsIdCounter s' = logsIdCounter s
  | OpGetCommands | OpGetCommand _ | OpGetCommandByName _
  | OpGetLogs _ | OpGetBotStats => s' = s
  end.
Proof.
  destruct o; simpl; try (repeat split; reflexivity).
  unfold exec, updateCommand.
  destruct (JsMap.get id (commands s)); repeat split; reflexivity.
Qed.

(* ================================================================= *)
(** ** [parseInt] on the decimal form of an integer *)

Section ParseDecimal.
Import JsString.

Lemma digit_0 : digit 10 "0" = Some 0. Proof. reflexivity. Qed.
Lemma digit_1 : digit 10 "1" = Some 1. Proof. reflexivity. Qed.
Lemma digit_2 : digit 10 "2" = Some 2. Proof. reflexivity. Qed.
Lemma digit_3 : digit 10 "3" = Some 3. Proof. reflexivity. Qed.
Lemma digit_4 : digit 10 "4" = Some 4. Proof. reflexivity. Qed.
Lemma digit_5 : digit 10 "5" = Some 5. Proof. reflexivity. Qed.
Lemma digit_6 : digit 10 "6" = Some 6. Proof. reflexivity. Qed.
Lemma digit_7 : digit 10 "7" = Some 7. Proof. reflexivity. Qed.
Lemma digit_8 : digit 10 "8" = Some 8. Proof. reflexivity. Qed.
Lemma digit_9 : digit 10 "9" = Some 9. Proof. reflexivity. Qed.

Ltac read_digit :=
  cbn [NilEmpty.string_of_uint append digits];
  rewrite ?digit_0, ?digit_1, ?digit_2, ?digit_3, ?digit_4, ?digit_5,
    ?digit_6, ?digit_7, ?digit_8, ?digit_9.

Lemma digits_uint_acc (rest : string) :
  (forall acc, digits 10 rest acc = acc) ->
  forall u p,
    digits 10 (NilEmpty.string_of_uint u ++ rest) (Some (Z.pos p))
    = Some (Z.pos (Pos.of_uint_acc u p)).
Proof.
  intros Hrest. induction u as [|u IH|u IH|u IH|u IH|u IH|u IH|u IH|u IH|u IH|u IH];
    intros p; read_digit; cbn [Pos.of_uint_acc];
    [apply Hrest|..];
    match goal with
    | |- digits 10 _ (Some ?v) = Some (Z.pos (Pos.of_uint_acc _ ?q)) =>
        replace v with (Z.pos q) by lia; apply IH
    end.
Qed.

Lemma digits_uint (rest : string) :
  (forall acc, digits 10 rest acc = acc) ->
  forall u,
    digits 10 (NilEmpty.string_of_uint u ++ rest) (Some 0)
    = Some (Z.of_uint u).
Proof.
  intros Hrest. unfold Z.of_uint.
  induction u as [|u IH|u IH|u IH|u IH|u IH|u IH|u IH|u IH|u IH|u IH];
    read_digit; cbn [Pos.of_uint Z.of_N];
    [apply Hrest | exact IH | ..];
    match goal with
    | |- digits 10 _ (Some ?v) = _ =>
        let v' := eval cbv in v in
        change v with v'; now apply digits_uint_acc
    end.
Qed.


Lemma digits_uint_start (rest : string) :
  (forall acc, digits 10 rest acc = acc) ->
  forall u, u <> Decimal.Nil ->
    digits 10 (NilEmpty.string_of_uint u ++ rest) None = Some (Z.of_uint u).
Proof.
  intros Hrest u Hu.
  rewrite <- (digits_uint rest Hrest u).
  destruct u; [congruence|..]; read_digit; reflexivity.
Qed.

Lemma parseInt_uint (rest : string) (u : Decimal.uint) :
  (forall acc, digits 10 rest acc = acc) ->
  u <> Decimal.Nil -> u <> Decimal.D0 Decimal.Nil ->
  parseInt (NilEmpty.string_of_uint u ++ rest) = JsNum.Int (Z.of_uint u) /\
  parseInt (String "-" (NilEmpty.string_of_uint u ++ rest))
  = JsNum.Int (- Z.of_uint u).
Proof.
  intros Hrest Hnil Hzero.
  pose proof (digits_uint_start rest Hrest u Hnil) as Hd.
  destruct u as [|u|u|u|u|u|u|u|u|u|u]; try congruence;
    try (cbn [NilEmpty.string_of_uint append] in *;
         unfold parseInt;
         cbv -[digits Z.mul Z.of_uint NilEmpty.string_of_uint append Z.opp];
         rewrite Hd; split; f_equal; lia).
  destruct u as [|u|u|u|u|u|u|u|u|u|u]; try congruence;
    cbn [NilEmpty.string_of_uint append] in *;
    unfold parseInt;
    cbv -[digits Z.mul Z.of_uint NilEmpty.string_of_uint append Z.opp];
    rewrite Hd; split; f_equal; lia.
Qed.

Lemma string_of_uint_nonnil (u : Decimal.uint) :
  u <> Decimal.Nil ->
  NilZero.string_of_uint u = NilEmpty.string_of_uint u.
Proof. destruct u; [congruence|reflexivity..]. Qed.

Lemma parseInt_toString_then (z : Z) (rest : string) :
  (forall acc, digits 10 rest acc = acc) ->
  (z = 0 -> startsWith "x" rest = false /\ startsWith "X" rest = false) ->
  parseInt (JsNum.toString z ++ rest) = JsNum.Int z.
Proof.
  intros Hrest Hhex. unfold JsNum.toString.
  destruct z as [|p|p]; cbn [Z.to_int NilZero.string_of_int].
  - destruct (Hhex eq_refl) as [Hx HX].
    assert (Hd : digits 10 (String "0" rest) None = Some 0).
    { cbn [digits]. rewrite digit_0. apply Hrest. }
    cbn [NilZero.string_of_uint NilEmpty.string_of_uint append].
    destruct rest as [|c r].
    + reflexivity.
    + unfold parseInt. cbn [startsWith] in Hx, HX.
      destruct c as [[] [] [] [] [] [] [] []];
        try discriminate;
        cbv -[digits Z.mul]; rewrite Hd; reflexivity.
  - pose proof (Unsigned.to_uint_nonnil p) as Hnil.
    pose proof (Unsigned.to_uint_nonzero p) as Hz.
    destruct (parseInt_uint rest _ Hrest Hnil Hz) as [H _].
    rewrite (string_of_uint_nonnil _ Hnil).
    rewrite H. unfold Z.of_uint. now rewrite Unsigned.of_to.
  - pose proof (Unsigned.to_uint_nonnil p) as Hnil.
    pose proof (Unsigned.to_uint_nonzero p) as Hz.
    destruct (parseInt_uint rest _ Hrest Hnil Hz) as [_ H].
    rewrite (string_of_uint_nonnil _ Hnil).
    cbn [append]. rewrite H. unfold Z.of_uint. now rewrite Unsigned.of_to.
Qed.

Lemma parseInt_toString (z : Z) : parseInt (JsNum.toString z) = JsNum.Int z.
Proof.
  rewrite <- (parseInt_toString_then z "").
  - f_equal. induction (JsNum.toString z); simpl; congruence.
  - reflexivity.
  - intros _. split; reflexivity.
Qed.

End ParseDecimal.

Lemma digits_stop (rest : string) :
  match rest with
  | EmptyString => True
  | String ch _ => JsString.digit 10 ch = None
  end ->
  forall acc, JsString.digits 10 rest acc = acc.
Proof.
  destruct rest as [|ch r]; simpl; intros H acc; [reflexivity|].
  now rewrite H.
Qed.

Lemma parseInt_id_then_text (z : Z) (ch : ascii) (text : string) :
  z <> 0 -> JsString.digit 10 ch = None ->
  JsString.parseInt (JsNum.toString z ++ String ch text) = JsNum.Int z.
Proof.
  intros Hz Hch. apply parseInt_toString_then.
  - now apply digits_stop.
  - intros E. contradiction.
Qed.

(* ================================================================= *)
(** * Further properties of the handlers *)

(** ** Commands over HTTP *)

(** A command created through [POST /api/commands] is answered with 201
    and the stored command, and the decimal
    form of its id, used as the [:id] of [GET /api/commands/:id], gets it
    back with 200.  A body that the schema rejects is answered 400 and
    nothing is stored. *)
Theorem post_command_then_get_by_id
    (s : MemStorage) (command : InsertCommand.t) (now : Z) :
  (exists c s',
      createCommandRoute (Some command) now s
      = (json 201 (OneCommand c), s') /\
      c = eval (createCommand command now) s /\
      getCommandRoute (JsNum.toString (Command.id c)) s'
      = (json 200 (OneCommand c), s')) /\
  createCommandRoute None now s
  = (json 400 (MessageErrors "Invalid command data"), s).
Proof.
  split; [|reflexivity].
  exists (eval (createCommand command now) s),
    (exec (createCommand command now) s).
  split; [reflexivity|]. split; [reflexivity|].
  unfold getCommandRoute. rewrite parseInt_toString.
  unfold bind, getCommand, eval, exec, createCommand. simpl.
  now rewrite JsMapFacts.get_set_eq.
Qed.

(** The id parameter is read up to its first character that is not a
    digit: for a non-zero integer [z], a path [<z><ch><text>] with [ch] no
    decimal digit is handled by the get, update and delete endpoints as
    the path [<z>]. *)
Theorem id_parameter_read_up_to_first_non_digit
    (z : Z) (ch : ascii) (text : string)
    (parsed : option PartialInsertCommand.t) :
  z <> 0 -> JsString.digit 10 ch = None ->
  let padded := (JsNum.toString z ++ String ch text)%string in
  getCommandRoute padded = getCommandRoute (JsNum.toString z) /\
  patchCommandRoute padded parsed
  = patchCommandRoute (JsNum.toString z) parsed /\
  deleteCommandRoute padded = deleteCommandRoute (JsNum.toString z).
Proof.
  intros Hz Hch padded.
  unfold getCommandRoute, patchCommandRoute, deleteCommandRoute, padded.
  rewrite parseInt_id_then_text, parseInt_toString by assumption.
  repeat split.
Qed.

Lemma id_parameter_read_up_to_first_non_digit_witness :
  let s := constructor (fun k => Z.of_nat k) in
  2 <> 0 /\ JsString.digit 10 "a" = None /\
  status (eval (getCommandRoute "2abc") s) = 200.
Proof.
  intros s.
  assert (H1 : 2 <> 0) by lia.
  assert (H2 : JsString.digit 10 "a" = None) by reflexivity.
  split; [exact H1|]. split; [exact H2|].
  destruct (id_parameter_read_up_to_first_non_digit 2 "a" "bc" None H1 H2)
    as (H & _).
  change "2abc" with (JsNum.toString 2 ++ String "a" "bc")%string.
  rewrite H. reflexivity.
Defined.

(** [DELETE /api/commands/:id] on a store reached by a run: an id that
    does not parse is answered 400 and an id that no command has 404, the
    store untouched in both cases; the id of a stored command is answered
    204 with no body, after which a get and a second delete of the same
    path are answered 404. *)
Theorem delete_route_outcomes
    (clk : nat -> Z) (ops : list Op) (idParam : string) :
  let s := run ops (constructor clk) in
  let s' := exec (deleteCommandRoute idParam) s in
  match JsString.parseInt idParam with
  | JsNum.NaN =>
      deleteCommandRoute idParam s
      = (json 400 (Message "Invalid command ID"), s)
  | JsNum.Int id =>
      match JsMap.get id (commands s) with
      | None =>
          deleteCommandRoute idParam s
          = (json 404 (Message "Command not found"), s)
      | Some _ =>
          eval (deleteCommandRoute idParam) s = mkResponse 204 Empty /\
          getCommandRoute idParam s'
          = (json 404 (Message "Command not found"), s') /\
          deleteCommandRoute idParam s'
          = (json 404 (Message "Command not found"), s')
      end
  end.
Proof.
  intros s s'. unfold s', exec, eval, deleteCommandRoute, getCommandRoute.
  destruct (JsString.parseInt idParam) as [|id]; [reflexivity|].
  destruct (wellKeyed_run ops _ (wellKeyed_constructor clk)) as (Hnd & _).
  fold s in Hnd.
  destruct (JsMap.get id (commands s)) as [c|] eqn:Hget.
  - pose proof (JsMapFacts.get_delete_eq (commands s) id Hnd) as Hgone.
    unfold bind, deleteCommand, getCommand, JsMap.has. rewrite Hget. simpl.
    rewrite Hgone. simpl.
    rewrite (JsMapMore.delete_absent _ _ Hgone). repeat split.
  - unfold bind, deleteCommand, JsMap.has. rewrite Hget. simpl.
    rewrite (JsMapMore.delete_absent _ _ Hget). now destruct s.
Qed.

(** [PATCH /api/commands/:id] never adds, removes or reorders commands and
    never touches logs, statistics or counters; the id is checked before
    the body, so a bad id with a bad body is answered
    "Invalid command ID"; a body that the schema rejects changes nothing. *)
Theorem patch_route_frame
    (s : MemStorage) (idParam : string)
    (parsed : option PartialInsertCommand.t) :
  let s' := exec (patchCommandRoute idParam parsed) s in
  JsMap.keys (commands s') = JsMap.keys (commands s) /\
  logs s' = logs s /\ botStats s' = botStats s /\
  commandsIdCounter s' = commandsIdCounter s /\
  logsIdCounter s' = logsIdCounter s /\
  exec (patchCommandRoute idParam None) s = s /\
  match JsString.parseInt idParam with
  | JsNum.NaN =>
      patchCommandRoute idParam None
      = ret (json 400 (Message "Invalid command ID"))
  | JsNum.Int _ =>
      patchCommandRoute idParam None
      = ret (json 400 (MessageErrors "Invalid command data"))
  end.
Proof.
  simpl. unfold exec, patchCommandRoute.
  destruct (JsString.parseInt idParam) as [|id]; [repeat split|].
  destruct parsed as [p|]; [|repeat split].
  unfold bind, updateCommand.
  destruct (JsMap.get id (commands s)) as [c|] eqn:Hget; simpl;
    [|repeat split].
  repeat split. eapply JsMapFacts.keys_set_present; eauto.
Qed.

(** ** Status and restart *)

(** [GET /api/status] on a store reached by a run is answered 503 exactly
    when the chat client is absent; with a client it is answered 200 with
    the stored statistics and the status "online" or "offline" as the
    client is ready or not.  The store is not changed. *)
Theorem status_route_available_iff_client
    (clk : nat -> Z) (ops : list Op) (bot : option Bot.t) :
  let s := run ops (constructor clk) in
  exec (statusRoute bot) s = s /\
  match bot with
  | None =>
      eval (statusRoute bot) s
      = Reply.mk 503 (Reply.Plain (Message "Bot is not available"))
  | Some b =>
      exists stats,
        eval getBotStats s = Some stats /\
        eval (statusRoute bot) s
        = Reply.mk 200
            (Reply.BotStatus
               (if Bot.isReady b then "online" else "offline") stats)
  end.
Proof.
  intros s.
  destruct (botStats_id_run ops (constructor clk)) as (st & Hst & _);
    [eexists; split; reflexivity|].
  fold s in Hst.
  unfold eval, exec, statusRoute, bind, getBotStats. simpl. rewrite Hst.
  destruct bot as [b|]; split; try reflexivity.
  exists st. split; reflexivity.
Qed.

(** [POST /api/restart] logs the request before it looks for the chat
    client: whatever the client, one "System" entry with the details
    "Bot restart requested" is appended and the commands are untouched.
    Without a client the answer is 503 and the statistics stay; with one
    the answer is 200 and the statistics are replaced by a record with
    uptime "0d 0h 0m", the client's guild count and latency, the number of
    stored commands, the heap size in MB, and the handler's clock reading
    as both start and update time. *)
Theorem restart_route_logs_then_resets
    (s : MemStorage) (bot : option Bot.t) (logNow now heapUsed : Z) :
  let s' := exec (restartRoute bot logNow now heapUsed) s in
  let resp := eval (restartRoute bot logNow now heapUsed) s in
  logs s'
  = (logs s ++
     [Log.mk (logsIdCounter s) "System" "-" "-" "Bot restart requested"
        logNow])%list /\
  commands s' = commands s /\
  commandsIdCounter s' = commandsIdCounter s /\
  match bot with
  | None =>
      resp = json 503 (Message "Bot is not available") /\
      botStats s' = botStats s
  | Some b =>
      resp = json 200 (Message "Bot restarted successfully") /\
      botStats s'
      = Some (BotStat.mk 1 "0d 0h 0m" (Bot.guildsCacheSize b)
                (Z.of_nat (List.length (eval getCommands s)))
                (JsNum.toString ((heapUsed + 524288) / 1048576) ++ " MB")
                (Bot.wsPing b) now now)
  end.
Proof.
  destruct bot as [b|]; simpl; repeat split.
Qed.

(** ** The read endpoints *)

(** The four GET handlers never change the store, whatever their
    parameters; the two list endpoints always answer 200. *)
Theorem get_routes_read_only (s : MemStorage) :
  exec getCommandsRoute s = s /\
  status (eval getCommandsRoute s) = 200 /\
  (forall idParam, exec (getCommandRoute idParam) s = s) /\
  (forall limitQuery,
      exec (getLogsRoute limitQuery) s = s /\
      status (eval (getLogsRoute limitQuery) s) = 200) /\
  (forall bot, exec (statusRoute bot) s = s).
Proof.
  split; [reflexivity|]. split; [reflexivity|]. split; [|split].
  - intros idParam. unfold exec, getCommandRoute, bind, getCommand.
    destruct (JsString.parseInt idParam) as [|id]; [reflexivity|].
    simpl. destruct (JsMap.get id (commands s)); reflexivity.
  - intros q. split; reflexivity.
  - intros bot. unfold exec, statusRoute, bind, getBotStats. simpl.
    destruct bot, (botStats s); reflexivity.
Qed.

(** ** Logs over HTTP *)

(** A log created through [POST /api/logs] is answered 201 with the stored
    entry, which carries the next log id and the clock reading, and the
    entry is in the list that [GET /api/logs] returns next.  A body that
    the schema rejects is answered 400 and nothing is stored. *)
Theorem post_log_then_listed (s : MemStorage) (log : InsertLog.t) (now : Z) :
  (exists entry s' listed,
      createLogRoute (Some log) now s
      = (Reply.mk 201 (Reply.OneLog entry), s') /\
      entry = Log.mk (logsIdCounter s)
                (InsertLog.eventType log) (InsertLog.server log)
                (InsertLog.user log) (InsertLog.details log) now /\
      getLogsRoute None s' = (json 200 (Logs listed), s') /\
      In entry listed /\
      List.length listed = S (List.length (logs s))) /\
  createLogRoute None now s
  = (Reply.mk 400 (Reply.Plain (MessageErrors "Invalid log data")), s).
Proof.
  split; [|reflexivity].
  exists (eval (createLog log now) s), (exec (createLog log now) s),
    (JsArray.sort byTimestampDesc (logs (exec (createLog log now) s))).
  split; [reflexivity|]. split; [reflexivity|]. split; [reflexivity|].
  split.
  - eapply Permutation_in; [apply SortFacts.sort_perm|].
    unfold exec, createLog, JsArray.push. simpl.
    apply in_or_app. right. now left.
  - rewrite SortFacts.sort_length.
    unfold exec, createLog, JsArray.push. simpl.
    rewrite length_app. simpl. lia.
Qed.

(** [GET /api/logs?limit=<n>] with the decimal form of an integer
    [n >= 1], alone or followed by text that starts with a character that
    is no digit, is answered 200 with the first [n] entries of the logs in
    descending timestamp order. *)
Theorem get_logs_with_decimal_limit (s : MemStorage) (n : Z) (text : string) :
  0 < n ->
  match text with
  | EmptyString => True
  | String ch _ => JsString.digit 10 ch = None
  end ->
  getLogsRoute (Some (JsNum.toString n ++ text)%string) s
  = (json 200
       (Logs (firstn (Z.to_nat n) (JsArray.sort byTimestampDesc (logs s)))),
     s).
Proof.
  intros Hn Htext. unfold getLogsRoute, limitOfQuery.
  assert (Hp : JsString.parseInt (JsNum.toString n ++ text) = JsNum.Int n).
  { apply parseInt_toString_then; [now apply digits_stop|lia]. }
  assert (Ht : JsString.truthy (JsNum.toString n ++ text) = true).
  { destruct (JsNum.toString n ++ text)%string; [discriminate Hp|].
    reflexivity. }
  rewrite Ht, Hp. unfold bind.
  pose proof (getLogs_positive n s Hn) as Hr. unfold eval in Hr.
  destruct (getLogs (Some (JsNum.Int n)) s) as [r s1] eqn:E.
  simpl in Hr. subst r.
  assert (s1 = s) by (unfold getLogs in E; congruence). subst s1.
  reflexivity.
Qed.

Lemma get_logs_with_decimal_limit_witness :
  let log := InsertLog.mk "System" "-" "-" "tick" in
  let s :=
    run [OpCreateLog log 10; OpCreateLog log 30; OpCreateLog log 20]
      (constructor (fun k => Z.of_nat k)) in
  0 < 2 /\ JsString.digit 10 "p" = None /\
  getLogsRoute (Some "2px") s
  = (json 200
       (Logs [ Log.mk 2 "System" "-" "-" "tick" 30;
               Log.mk 3 "System" "-" "-" "tick" 20 ]), s).
Proof.
  intros log s.
  assert (H1 : 0 < 2) by lia.
  assert (H2 : JsString.digit 10 "p" = None) by reflexivity.
  split; [exact H1|]. split; [exact H2|].
  change "2px" with (JsNum.toString 2 ++ "px")%string.
  rewrite (get_logs_with_decimal_limit s 2 "px" H1 H2). reflexivity.
Defined.
